(** * Group and event routes of the Meetup-style API, and the client-side
      event partition

    A shallow embedding of [backend/routes/api/groups.js] (the validator
    chains, the guarded mutation routes and the aggregate listing
    queries) and of [getTimeEvents] from the single-group page of the
    front end, followed by the properties established about them.

    Conventions.
    - A request body is a JS object whose fields hold primitive JSON
      values ([jsval]); a missing field reads as [JUndefined].
    - JSON numbers are exact rationals ([Qc]); the rounding of the
      engine's doubles is not modelled.
    - A text is held as the bytes of its UTF-8 encoding.
    - The [:groupId] of a path is held as the number it names; its
      text is the decimal numeral of that number.
    - Tables are lists of rows, as a [SELECT] without [ORDER BY] sees
      them; primary keys are the [id] fields.
    - A route is a function from the request and the database to a
      response and the database afterwards. *)

From Stdlib Require Import QArith Qcanon Ascii String.
From stdpp Require Import gmap strings list sorting pretty.

Open Scope Z_scope.

(** Left-to-right application, to write a validator chain in the order
    the source writes it: [check "name" .> exists_ true .> ...]. *)
Notation "c '.>' f" := (f c) (at level 45, left associativity, only parsing).

(* ===================================================================== *)
(** * JavaScript values                                                   *)
(* ===================================================================== *)

Module Js.

(** The primitive values a parsed JSON body can hold in a field. *)
Inductive jsval :=
| JUndefined
| JNull
| JBool (b : bool)
| JNum (q : Qc)
| JStr (s : string).

#[global] Instance jsval_eq_dec : EqDecision jsval.
Proof. solve_decision. Defined.

Definition num (z : Z) : jsval := JNum (Q2Qc (inject_Z z)).

(** [!!v]: the empty string, [0], [false], [null] and [undefined] are
    falsy. *)
Definition truthy (v : jsval) : bool :=
  match v with
  | JUndefined | JNull => false
  | JBool b => b
  | JNum q => negb (bool_decide (q = Q2Qc 0))
  | JStr s => negb (bool_decide (s = ""))
  end.

(** [obj.field] on a parsed body. *)
Definition field (body : gmap string jsval) (k : string) : jsval :=
  default JUndefined (body !! k).

(** ** [String(n)] for a number

    [Number::toString] of the language, for a number with a finite
    decimal expansion. With [s] the integer of its [k] significant
    digits and the number equal to [s * 10^(n - k)]: the digits and
    [n - k] zeros when [k ≤ n ≤ 21]; the digits with a point after the
    first [n] when [0 < n ≤ 21]; [0.], [-n] zeros and the digits when
    [-6 < n ≤ 0]; and otherwise the first digit, a point and the other
    digits if there are any, the letter e, a sign and [n - 1]. The
    digits are those of the exact number: the engine prints the
    shortest digits that read back as the same double, which are these
    for a number of at most 15 significant digits. *)
Definition digit_char (d : Z) : ascii := ascii_of_nat (48 + Z.to_nat d).

Fixpoint frac_digits (fuel : nat) (r den : Z) : string :=
  match fuel with
  | O => ""
  | S fuel' =>
      if r =? 0 then ""
      else String (digit_char (r * 10 / den))
                  (frac_digits fuel' ((r * 10) `mod` den) den)
  end.

(** The least [f] from [f0] on with [den] dividing [10^f]: the number
    of decimal places of a fraction of denominator [den]. *)
Fixpoint decimal_places (fuel : nat) (den f0 : Z) : option Z :=
  if (10 ^ f0) `mod` den =? 0 then Some f0
  else match fuel with
       | O => None
       | S fuel' => decimal_places fuel' den (f0 + 1)
       end.

(** [strip_zeros fuel m z]: the trailing zeros of [m] taken off and
    added to [z]. *)
Fixpoint strip_zeros (fuel : nat) (m z : Z) : Z * Z :=
  match fuel with
  | O => (m, z)
  | S fuel' =>
      if (0 <? m) && (m `mod` 10 =? 0)
      then strip_zeros fuel' (m / 10) (z + 1)
      else (m, z)
  end.

Fixpoint zeros (n : nat) : string :=
  match n with
  | O => ""
  | S n' => String "0" (zeros n')
  end.

(** The text of the positive number [s * 10^(n - k)], where [digits]
    are the [k] digits of [s]. *)
Definition format_decimal (digits : string) (n : Z) : string :=
  let k := Z.of_nat (String.length digits) in
  if bool_decide (k ≤ n ≤ 21) then
    digits +:+ zeros (Z.to_nat (n - k))
  else if bool_decide (0 < n ≤ 21) then
    substring 0 (Z.to_nat n) digits
      +:+ "." +:+ substring (Z.to_nat n) (Z.to_nat (k - n)) digits
  else if bool_decide (-6 < n ≤ 0) then
    "0." +:+ zeros (Z.to_nat (- n)) +:+ digits
  else
    substring 0 1 digits
      +:+ (if bool_decide (k = 1) then ""
           else "." +:+ substring 1 (Z.to_nat (k - 1)) digits)
      +:+ "e" +:+ (if bool_decide (0 ≤ n - 1) then "+" else "-")
      +:+ pretty (Z.abs (n - 1)).

Definition Number_toString (q : Qc) : string :=
  let num := Qnum q in
  let den := Z.pos (Qden q) in
  let a := Z.abs num in
  if a =? 0 then "0"
  else
    (if num <? 0 then "-" else "")
      +:+ match decimal_places (Pos.size_nat (Qden q)) den 0 with
          | Some f =>
              let '(s, z) :=
                strip_zeros (Z.to_nat (Z.log2 a) + Z.to_nat f + 1)
                            (a * 10 ^ f / den) 0 in
              let digits := pretty s in
              format_decimal digits
                             (Z.of_nat (String.length digits) + z - f)
          | None =>
              pretty (a / den) +:+ "." +:+ frac_digits 17 (a `mod` den) den
          end.

(** ** Reading a decimal literal

    [float_of_string s] is the number the validator library's float
    check sees in [s]. The library wants an optional sign, digits, an
    optional point followed by digits, and an optional exponent (the
    letter e, an optional sign and at least one digit), and wants
    [parseFloat s] not to be [NaN], which for such a string means
    that the mantissa has a digit. *)
Definition is_digit (c : ascii) : bool :=
  let n := nat_of_ascii c in (48 <=? n)%nat && (n <=? 57)%nat.

Fixpoint take_digits (s : string) : list Z * string :=
  match s with
  | String c r =>
      if is_digit c
      then let '(ds, rest) := take_digits r in
           (Z.of_nat (nat_of_ascii c - 48) :: ds, rest)
      else ([], s)
  | EmptyString => ([], s)
  end.

Definition digits_value (ds : list Z) : Z :=
  fold_left (λ acc d, 10 * acc + d) ds 0.

Definition take_sign (s : string) : bool * string :=
  match s with
  | String "-" r => (true, r)
  | String "+" r => (false, r)
  | _ => (false, s)
  end.

Definition take_exponent (s : string) : option Z :=
  match s with
  | EmptyString => Some 0
  | String c r =>
      if bool_decide (c = "e"%char ∨ c = "E"%char) then
        let '(neg, r1) := take_sign r in
        let '(ds, r2) := take_digits r1 in
        match ds, r2 with
        | _ :: _, EmptyString =>
            Some (if neg then - digits_value ds else digits_value ds)
        | _, _ => None
        end
      else None
  end.

Definition pow10 (e : Z) : Q :=
  if 0 <=? e then inject_Z (10 ^ e) else 1 # Z.to_pos (10 ^ (- e)).

Definition float_of_string (s : string) : option Qc :=
  let '(neg, s1) := take_sign s in
  let '(ip, s2) := take_digits s1 in
  let '(fp, s3) := match s2 with
                   | String "." r => take_digits r
                   | _ => ([], s2)
                   end in
  match take_exponent s3 with
  | None => None
  | Some e =>
      if bool_decide (ip = [] ∧ fp = []) then None
      else
        let mant := (digits_value (ip ++ fp) # Z.to_pos (10 ^ Z.of_nat (length fp)))%Q in
        let v := (mant * pow10 e)%Q in
        Some (Q2Qc (if neg then - v else v)%Q)
  end.

End Js.
Export Js.

(** JSON documents sent in a response. *)
#[warnings="-register-all"]
Inductive json :=
| JVal (v : jsval)
| JObj (fields : gmap string json)
| JArr (items : list json).

(* ===================================================================== *)
(** * The validation library                                              *)
(* ===================================================================== *)

Module Validator.

(** The library's [toString], which every standard validator applies
    to the field's value first. *)
Definition toString (v : jsval) : string :=
  match v with
  | JUndefined | JNull => ""
  | JBool true => "true"
  | JBool false => "false"
  | JNum q => Number_toString q
  | JStr s => s
  end.

(** One validator of a chain, with the message [withMessage] gave it. *)
Record validator := {
  test : jsval → bool;
  message : option string
}.

(** A chain for one body field; the validators are kept newest
    first. *)
Record chain := {
  param : string;
  validators : list validator
}.

Definition check (f : string) : chain :=
  {| param := f; validators := [] |}.

Definition custom (t : jsval → bool) (c : chain) : chain :=
  {| param := param c;
     validators := {| test := t; message := None |} :: validators c |}.

(** [.exists({ checkFalsy })]: with [checkFalsy] the value has to be
    truthy, without it the value has to differ from [undefined]. *)
Definition present (checkFalsy : bool) (v : jsval) : bool :=
  if checkFalsy then truthy v else negb (bool_decide (v = JUndefined)).

Definition exists_ (checkFalsy : bool) : chain → chain :=
  custom (present checkFalsy).

(** The length [isLength] compares: the characters of the text, that
    is its code points less the variation selectors U+FE0E and U+FE0F
    (the library takes the length of the string and subtracts the
    surrogate pairs and the selectors). In UTF-8 a byte [10xxxxxx]
    continues a character, and the two selectors are the bytes
    [EF B8 8E] and [EF B8 8F]. *)
Definition continues (c : ascii) : bool :=
  match c with
  | Ascii _ _ _ _ _ _ b6 b7 => b7 && negb b6
  end.

Definition selector_at (s : string) : bool :=
  match s with
  | String c0 (String c1 (String c2 _)) =>
      bool_decide (c0 = ascii_of_nat 239 ∧ c1 = ascii_of_nat 184
                   ∧ (c2 = ascii_of_nat 142 ∨ c2 = ascii_of_nat 143))
  | _ => false
  end.

Fixpoint characters (s : string) : nat :=
  match s with
  | EmptyString => O
  | String c r =>
      if continues c || selector_at (String c r) then characters r
      else S (characters r)
  end.

(** [.isLength({ min, max })]; [min] defaults to [0]. *)
Definition length_ok (min max : option nat) (v : jsval) : bool :=
  let n := characters (toString v) in
  bool_decide (default 0%nat min ≤ n)%nat
  && match max with Some m => bool_decide (n ≤ m)%nat | None => true end.

Definition isLength (min max : option nat) : chain → chain :=
  custom (length_ok min max).

(** [.isIn(values)]. *)
Definition among (values : list string) (v : jsval) : bool :=
  bool_decide (toString v ∈ values).

Definition isIn (values : list string) : chain → chain :=
  custom (among values).

(** [.isBoolean()], strict. *)
Definition isBoolean : chain → chain :=
  custom (among ["true"; "false"; "1"; "0"]).

(** [.isFloat({ gt, lt })]. A number prints to a literal that reads
    back as the same number, so it is compared as it is; any other
    value is printed and read. *)
Definition float_between (gt lt : Z) (v : jsval) : bool :=
  let x := match v with
           | JNum q => Some q
           | _ => float_of_string (toString v)
           end in
  match x with
  | Some q => bool_decide (Q2Qc (inject_Z gt) < q)%Qc
              && bool_decide (q < Q2Qc (inject_Z lt))%Qc
  | None => false
  end.

Definition isFloat (gt lt : Z) : chain → chain :=
  custom (float_between gt lt).

(** [.withMessage(m)] names the message of the validator before it. *)
Definition withMessage (m : string) (c : chain) : chain :=
  {| param := param c;
     validators :=
       match validators c with
       | v :: vs => {| test := test v; message := Some m |} :: vs
       | [] => []
       end |}.

(** Running a chain: every validator runs (there is no [bail]), and
    each failure reports the field with the validator's message, or
    the library's default one. *)
Definition run_chain (body : gmap string jsval) (c : chain)
  : list (string * string) :=
  let v := field body (param c) in
  omap (λ t, if test t v then None
             else Some (param c, default "Invalid value" (message t)))
       (reverse (validators c)).

(** The errors of a list of chains, in the order the chains are
    mounted. *)
Definition validationResult (body : gmap string jsval) (cs : list chain)
  : list (string * string) :=
  cs ≫= run_chain body.

End Validator.
Export Validator.

(* ===================================================================== *)
(** * Requests, responses and middleware                                  *)
(* ===================================================================== *)

Module Http.

(** The error object a middleware hands to [next]; the error handler
    renders it as JSON under its [status]. *)
Record HttpError := {
  err_status : Z;
  err_errors : gmap string string
}.

(** The authenticated principal the session middleware attaches. *)
Record User := {
  user_id : Z;
  firstName : string;
  lastName : string;
  username : string
}.

(** A request as it reaches the router: the principal (if any), the
    [:groupId] of the path and the parsed body. *)
Record Request := {
  user : option User;
  groupId_param : Z;
  body : gmap string jsval
}.

(** The request while it travels down a route: [validation] collects
    what the validator chains have reported on it so far. *)
Record Context := {
  request : Request;
  validation : list (string * string)
}.

(** [req.params.groupId]: the text of the path segment. *)
Definition params_groupId (req : Request) : jsval :=
  JStr (pretty (groupId_param req)).

Inductive Response :=
| Sent (status : Z) (payload : json)
| Failed (e : HttpError).

Definition status_of (r : Response) : Z :=
  match r with
  | Sent s _ => s
  | Failed e => err_status e
  end.

(** A step either passes a value on or fails with an error. *)
Definition step (A : Type) : Type := HttpError + A.

#[global] Instance step_ret : MRet step := λ A x, inr x.
#[global] Instance step_bind : MBind step := λ A B f m,
  match m with
  | inl e => inl e
  | inr x => f x
  end.

Definition fail_with {A} (e : HttpError) : step A := inl e.

End Http.
Export Http.

(* ===================================================================== *)
(** * The relational schema                                               *)
(* ===================================================================== *)

(** Modelled from the spec: the model files of [Group], [Membership],
    [GroupImage], [Venue], [Event], [Attendance] and [EventImage] are
    not part of the sources at hand; the columns are those of the
    spec's data model, with the two timestamp columns of [Event] that
    the event listing names. A column that a route fills from the
    request body holds the value the ORM's instance holds for it: the
    body's value as it came, sanitised for the boolean columns
    [private] and [preview]. What the database engine makes of a value
    of another type than its column is not modelled. Timestamps that
    the ORM maintains on the other tables are left out. *)

Module Group.
Record t := {
  id : Z;
  organizerId : Z;
  name : jsval;
  about : jsval;
  type : jsval;
  private : jsval;
  city : jsval;
  state : jsval
}.

Definition attributes (g : t) : list (string * jsval) :=
  [("id", num (id g)); ("organizerId", num (organizerId g));
   ("name", name g); ("about", about g); ("type", type g);
   ("private", private g); ("city", city g); ("state", state g)].
End Group.

Module Membership.
Record t := {
  id : Z;
  groupId : Z;
  userId : Z;
  status : string
}.
End Membership.

Module GroupImage.
Record t := {
  id : Z;
  groupId : Z;
  url : jsval;
  preview : jsval
}.
End GroupImage.

Module Venue.
Record t := {
  id : Z;
  groupId : Z;
  address : jsval;
  city : jsval;
  state : jsval;
  lat : jsval;
  lng : jsval
}.

Definition attributes (v : t) : list (string * jsval) :=
  [("id", num (id v)); ("groupId", num (groupId v));
   ("address", address v); ("city", city v); ("state", state v);
   ("lat", lat v); ("lng", lng v)].
End Venue.

Module Event.
Record t := {
  id : Z;
  groupId : Z;
  venueId : Z;
  name : string;
  startDate : string;
  description : string;
  capacity : Z;
  price : Qc;
  createdAt : string;
  updatedAt : string
}.

Definition attributes (e : t) : list (string * jsval) :=
  [("id", num (id e)); ("groupId", num (groupId e));
   ("venueId", num (venueId e)); ("name", JStr (name e));
   ("startDate", JStr (startDate e));
   ("description", JStr (description e));
   ("capacity", num (capacity e)); ("price", JNum (price e));
   ("createdAt", JStr (createdAt e)); ("updatedAt", JStr (updatedAt e))].
End Event.

Module Attendance.
Record t := {
  id : Z;
  eventId : Z;
  userId : Z;
  status : string
}.
End Attendance.

Module EventImage.
Record t := {
  id : Z;
  eventId : Z;
  url : jsval;
  preview : jsval
}.
End EventImage.

Record DB := {
  Groups : list Group.t;
  Memberships : list Membership.t;
  GroupImages : list GroupImage.t;
  Venues : list Venue.t;
  Events : list Event.t;
  Attendances : list Attendance.t;
  EventImages : list EventImage.t
}.

(* ===================================================================== *)
(** * The fragment of SQL the ORM emits                                   *)
(* ===================================================================== *)

Module Sql.

Section Operators.
Context {A B : Type}.

(** [l LEFT OUTER JOIN r ON on]: every row of [l] with each row of
    [r] that matches it, or once with [NULL]s when none does. *)
Definition left_outer_join (on : A → B → bool) (l : list A) (r : list B)
  : list (A * option B) :=
  a ← l;
  match filter (λ b, on a b) r with
  | [] => [(a, None)]
  | ms => (λ b, (a, Some b)) <$> ms
  end.

(** The right-hand sides a row is joined with: the matching rows, or
    one [NULL] row. *)
Definition matches (on : A → B → bool) (a : A) (r : list B)
  : list (option B) :=
  match filter (λ b, on a b) r with
  | [] => [None]
  | ms => Some <$> ms
  end.

(** [COUNT(col)]: the rows in which the column is not [NULL]. *)
Definition count {C} (col : A → option C) (rows : list A) : nat :=
  length (filter (λ r, is_Some (col r)) rows).
End Operators.

(** [GROUP BY key]: one group per distinct key, with the rows that
    have it. SQL leaves the order of the groups open; here they come
    in the order in which their keys first occur. *)
Definition group_by {A K} `{EqDecision K} (key : A → K) (rows : list A)
  : list (K * list A) :=
  (λ k, (k, filter (λ r, key r = k) rows)) <$> remove_dups (key <$> rows).

(** What the ORM does with the rows of a query that includes a
    one-to-many association: rows that repeat the primary key of an
    earlier row are folded into that row, whose own columns stay.
    Which row of a key comes first follows the order of the groups,
    so with several preview urls for one key the url that is kept is
    one of them, and not a fixed one. *)
Fixpoint fold_rows {A} (pk : A → Z) (seen : list Z) (rows : list A)
  : list A :=
  match rows with
  | [] => []
  | r :: rest =>
      if decide (pk r ∈ seen) then fold_rows pk seen rest
      else r :: fold_rows pk (pk r :: seen) rest
  end.

(** [Model.findByPk(k)]. *)
Definition findByPk {A} (pk : A → Z) (k : Z) (rows : list A) : option A :=
  head (filter (λ r, pk r = k) rows).

(** The key an [INSERT] gives the new row. *)
Definition next_id {A} (pk : A → Z) (rows : list A) : Z :=
  1 + foldr Z.max 0 (pk <$> rows).

(** [ORDER BY key]. *)
Definition order_by {A} (key : A → Z) (rows : list A) : list A :=
  @merge_sort A (λ a b, key a ≤ key b)
              (λ a b, decide (key a ≤ key b)) rows.

(** [attributes: [...]] and [attributes: { exclude: [...] }]. *)
Definition only (names : list string) (attrs : list (string * jsval))
  : list (string * jsval) :=
  filter (λ kv, kv.1 ∈ names) attrs.

Definition except (names : list string) (attrs : list (string * jsval))
  : list (string * jsval) :=
  filter (λ kv, kv.1 ∉ names) attrs.

(** The JSON object of a row's attributes. *)
Definition object (attrs : list (string * jsval)) : gmap string json :=
  list_to_map (prod_map id JVal <$> attrs).

(** [res.json(obj)] on an object literal: a property whose value is
    [undefined] is left out. *)
Definition res_json (attrs : list (string * jsval)) : gmap string json :=
  object (filter (λ kv, kv.2 ≠ JUndefined) attrs).

(** A value set on an attribute of type [BOOLEAN]: the ORM turns the
    strings [true] and [false] and the numbers [1] and [0] into the
    boolean, and keeps any other value as it came. *)
Definition BOOLEAN_sanitize (v : jsval) : jsval :=
  match v with
  | JStr s =>
      if bool_decide (s = "true") then JBool true
      else if bool_decide (s = "false") then JBool false
      else v
  | JNum q =>
      if bool_decide (q = Q2Qc 1) then JBool true
      else if bool_decide (q = Q2Qc 0) then JBool false
      else v
  | _ => v
  end.

End Sql.
Export Sql.

(* ===================================================================== *)
(** * Middleware                                                          *)
(* ===================================================================== *)

Module Middleware.

Definition middleware : Type := Context → DB → step Context.
Definition handler : Type := Request → DB → Response * DB.

(** [router.METHOD(path, m1, ..., mn, h)]: the middlewares run in the
    order they are mounted; the first that fails ends the request
    with its error, and the handler runs only when all have passed. *)
Definition run (mws : list middleware) (ctx : Context) (db : DB)
  : step Context :=
  foldl (λ acc mw, c ← acc; mw c db) (mret ctx) mws.

Definition route (mws : list middleware) (h : handler) : handler :=
  λ req db,
    match run mws {| request := req; validation := [] |} db with
    | inl e => (Failed e, db)
    | inr _ => h req db
    end.

Definition http_error (status : Z) (errors : gmap string string)
  : HttpError :=
  {| err_status := status; err_errors := errors |}.

(** Modelled from the spec: [requireAuth] of [utils/auth] is not part
    of the sources at hand. A request without an authenticated
    principal is refused with 401. *)
Definition requireAuth : middleware := λ ctx _,
  match user (request ctx) with
  | Some _ => mret ctx
  | None => fail_with (http_error 401 ∅)
  end.

Definition not_found : HttpError :=
  http_error 404 {[ "message" := "Group couldn't be found" ]}.

(** Modelled from the spec: [groupExists] of [utils/auth] is not part
    of the sources at hand. An id that has no [Group] row is answered
    with 404; the message is the one the single-group route of
    [groups.js] builds for the same case. *)
Definition groupExists : middleware := λ ctx db,
  match findByPk Group.id (groupId_param (request ctx)) (Groups db) with
  | Some _ => mret ctx
  | None => fail_with not_found
  end.

Definition organizes (u : option User) (g : Group.t) : bool :=
  match u with
  | Some p => bool_decide (Group.organizerId g = user_id p)
  | None => false
  end.

Definition cohosts (u : option User) (g : Group.t) (db : DB) : bool :=
  match u with
  | Some p =>
      bool_decide (Exists (λ m, Membership.groupId m = Group.id g
                                ∧ Membership.userId m = user_id p
                                ∧ Membership.status m = "co-host")
                          (Memberships db))
  | None => false
  end.

(** Modelled from the spec: [isOrganizer] of [utils/auth] is not part
    of the sources at hand. The predicate loads the group; a missing
    group is "not found" (404), a principal who is not the group's
    organizer lacks the capability (403). *)
Definition isOrganizer : middleware := λ ctx db,
  match findByPk Group.id (groupId_param (request ctx)) (Groups db) with
  | None => fail_with not_found
  | Some g =>
      if organizes (user (request ctx)) g then mret ctx
      else fail_with (http_error 403 ∅)
  end.

(** Modelled from the spec: [isOrgOrCo] of [utils/auth] is not part of
    the sources at hand. As [isOrganizer], for the capability set of
    the organizer and the co-hosts (memberships of status co-host). *)
Definition isOrgOrCo : middleware := λ ctx db,
  match findByPk Group.id (groupId_param (request ctx)) (Groups db) with
  | None => fail_with not_found
  | Some g =>
      if organizes (user (request ctx)) g
         || cohosts (user (request ctx)) g db
      then mret ctx
      else fail_with (http_error 403 ∅)
  end.

(** A validator chain mounted as a middleware: it records its
    failures on the request and always passes on. *)
Definition mount (c : chain) : middleware := λ ctx _,
  mret {| request := request ctx;
          validation :=
            validation ctx ++ run_chain (body (request ctx)) c |}.

(** The per-field map of a list of reports: [errors[field] = msg]
    for each report in turn. *)
Definition error_map (errs : list (string * string)) : gmap string string :=
  foldl (λ m kv, <[kv.1 := kv.2]> m) ∅ errs.

(** Modelled from the spec: [handleValidationErrors] of
    [utils/validation] is not part of the sources at hand. When a
    chain reported a failure the request ends with 400 and a map
    from each failing field to its message. *)
Definition handleValidationErrors : middleware := λ ctx _,
  match validation ctx with
  | [] => mret ctx
  | errs => fail_with (http_error 400 (error_map errs))
  end.

End Middleware.
Export Middleware.

(* ===================================================================== *)
(** * [routes/api/groups.js]                                              *)
(* ===================================================================== *)

Module Routes.

(** ** Validator chains *)

Definition group_checks : list chain :=
  [ check "name"
      .> exists_ true
      .> isLength None (Some 60%nat)
      .> withMessage "Name must be 60 characters or less";
    check "about"
      .> exists_ true
      .> isLength (Some 50%nat) None
      .> withMessage "About must be 50 characters or more";
    check "type"
      .> isIn ["Online"; "In person"]
      .> withMessage "Type must be 'Online' or 'In person'";
    check "private"
      .> exists_ false
      .> isBoolean
      .> withMessage "Private must be a boolean";
    check "city"
      .> exists_ true
      .> withMessage "City is required";
    check "state"
      .> exists_ true
      .> withMessage "State is required" ].

(** [validateGroup]: the six chains, then [handleValidationErrors]. *)
Definition validateGroup : list middleware :=
  (mount <$> group_checks) ++ [handleValidationErrors].

Definition venue_checks : list chain :=
  [ check "address"
      .> exists_ true
      .> withMessage "Street address is required";
    check "city"
      .> exists_ true
      .> withMessage "City is required";
    check "state"
      .> exists_ true
      .> withMessage "State is required";
    check "lat"
      .> exists_ true
      .> isFloat (-89) 91
      .> withMessage "Latitude is not valid";
    check "lng"
      .> exists_ true
      .> isFloat (-179) 181
      .> withMessage "Longitude is not valid" ].

(** [validateVenue]: the five chains, then [handleValidationErrors]. *)
Definition validateVenue : list middleware :=
  (mount <$> venue_checks) ++ [handleValidationErrors].

(** ** The group listings *)

(** A row of the group listings: the group's own columns and the two
    computed ones. *)
Record GroupRow := {
  group : Group.t;
  numMembers : nat;
  previewImage : jsval
}.

Definition GroupRow_object (r : GroupRow) : gmap string json :=
  object (Group.attributes (group r)
          ++ [("numMembers", num (Z.of_nat (numMembers r)));
              ("previewImage", previewImage r)]).

Definition GroupRow_toJSON (r : GroupRow) : json :=
  JObj (GroupRow_object r).

Definition GroupJoin : Type :=
  Group.t * option Membership.t * option GroupImage.t.

(** [FROM Groups LEFT OUTER JOIN Memberships ON groupId = Group.id
    LEFT OUTER JOIN GroupImages ON groupId = Group.id AND preview]. *)
Definition groups_join (db : DB) : list GroupJoin :=
  left_outer_join
    (λ r i, bool_decide (GroupImage.groupId i = Group.id r.1
                         ∧ GroupImage.preview i = JBool true))
    (left_outer_join (λ g m, bool_decide (Membership.groupId m = Group.id g))
                     (Groups db) (Memberships db))
    (GroupImages db).

(** [GroupImages.url], [NULL] where the join found no image. *)
Definition image_url (i : option GroupImage.t) : jsval :=
  from_option GroupImage.url JNull i.

(** [SELECT Group.*, COUNT(Memberships.id) AS numMembers,
    GroupImages.url AS previewImage ... GROUP BY Group.id,
    GroupImages.url]. *)
Definition groups_select (rows : list GroupJoin) : list GroupRow :=
  omap (λ grp : Z * jsval * list GroupJoin,
          match grp.2 with
          | r :: _ =>
              Some {| group := r.1.1;
                      numMembers := count (λ r, Membership.id <$> r.1.2) grp.2;
                      previewImage := grp.1.2 |}
          | [] => None
          end)
       (group_by (λ r : GroupJoin, (Group.id r.1.1, image_url r.2)) rows).

(** [Group.findAll] of [GET /groups]. *)
Definition findAll_groups (db : DB) : list GroupRow :=
  fold_rows (λ r, Group.id (group r)) [] (groups_select (groups_join db)).

(** [GET /groups] *)
Definition get_groups : handler := λ req db,
  (Sent 200 (JArr (GroupRow_toJSON <$> findAll_groups db)), db).

(** [Group.findAll] of [GET /groups/current]: the same query with
    [WHERE Group.organizerId = uid OR Memberships.userId = uid] and
    [ORDER BY Group.id]. *)
Definition current_where (uid : Z) (r : GroupJoin) : Prop :=
  Group.organizerId r.1.1 = uid
  ∨ (Membership.userId <$> r.1.2) = Some uid.

#[global] Instance current_where_dec uid r : Decision (current_where uid r).
Proof. unfold current_where. apply _. Defined.

Definition findAll_current (uid : Z) (db : DB) : list GroupRow :=
  fold_rows (λ r, Group.id (group r)) []
    (order_by (λ r, Group.id (group r))
       (groups_select (filter (current_where uid) (groups_join db)))).

(** [Membership.count({ where: { groupId } })]. *)
Definition Membership_count (gid : Z) (db : DB) : nat :=
  length (filter (λ m, Membership.groupId m = gid) (Memberships db)).

(** The loop of [GET /groups/current] over [groups1]. *)
Definition current_groups (uid : Z) (db : DB) : list GroupRow :=
  (λ r, {| group := group r;
           numMembers := Membership_count (Group.id (group r)) db;
           previewImage := previewImage r |})
    <$> findAll_current uid db.

Definition current_handler : handler := λ req db,
  match user req with
  | Some u =>
      (Sent 200 (JArr (GroupRow_toJSON <$> current_groups (user_id u) db)), db)
  | None => (Failed (http_error 500 ∅), db)
  end.

(** [GET /groups/current] *)
Definition get_current : handler := route [requireAuth] current_handler.

(** ** Writing routes *)

Definition with_Groups (gs : list Group.t) (db : DB) : DB :=
  {| Groups := gs; Memberships := Memberships db;
     GroupImages := GroupImages db; Venues := Venues db;
     Events := Events db; Attendances := Attendances db;
     EventImages := EventImages db |}.

Definition with_GroupImages (imgs : list GroupImage.t) (db : DB) : DB :=
  {| Groups := Groups db; Memberships := Memberships db;
     GroupImages := imgs; Venues := Venues db;
     Events := Events db; Attendances := Attendances db;
     EventImages := EventImages db |}.

Definition with_Venues (vs : list Venue.t) (db : DB) : DB :=
  {| Groups := Groups db; Memberships := Memberships db;
     GroupImages := GroupImages db; Venues := vs;
     Events := Events db; Attendances := Attendances db;
     EventImages := EventImages db |}.

(** A handler that dereferences [null] throws; the exception reaches
    the default error handler. *)
Definition unhandled : HttpError := http_error 500 ∅.

(** An attribute left [undefined] is stored as [NULL]. *)
Definition stored (v : jsval) : jsval :=
  match v with
  | JUndefined => JNull
  | _ => v
  end.

Definition post_group_handler : handler := λ req db,
  match user req with
  | None => (Failed unhandled, db)
  | Some u =>
      let b := body req in
      let group :=
        {| Group.id := next_id Group.id (Groups db);
           Group.organizerId := user_id u;
           Group.name := field b "name";
           Group.about := field b "about";
           Group.type := field b "type";
           Group.private := BOOLEAN_sanitize (field b "private");
           Group.city := field b "city";
           Group.state := field b "state" |} in
      (Sent 200 (JObj (object (Group.attributes group))),
       with_Groups (Groups db ++ [group]) db)
  end.

(** [POST /groups] *)
Definition post_group : handler :=
  route ([requireAuth] ++ validateGroup) post_group_handler.

(** The instance that [GroupImage.create] returns holds [url] as it
    came and [preview] sanitised; the row holds [NULL] for what was
    [undefined]. *)
Definition post_image_handler : handler := λ req db,
  let b := body req in
  let url := field b "url" in
  let preview := BOOLEAN_sanitize (field b "preview") in
  let groupImage :=
    {| GroupImage.id := next_id GroupImage.id (GroupImages db);
       GroupImage.groupId := groupId_param req;
       GroupImage.url := stored url;
       GroupImage.preview := stored preview |} in
  let safeImg :=
    [("id", num (GroupImage.id groupImage));
     ("url", url);
     ("preview", preview)] in
  (Sent 200 (JObj (res_json safeImg)),
   with_GroupImages (GroupImages db ++ [groupImage]) db).

(** [POST /groups/:groupId/images] *)
Definition post_image : handler :=
  route [requireAuth; groupExists; isOrganizer] post_image_handler.

(** [group.set({ name, about, type, private, city, state })]. *)
Definition Group_set (b : gmap string jsval) (g : Group.t) : Group.t :=
  {| Group.id := Group.id g;
     Group.organizerId := Group.organizerId g;
     Group.name := field b "name";
     Group.about := field b "about";
     Group.type := field b "type";
     Group.private := BOOLEAN_sanitize (field b "private");
     Group.city := field b "city";
     Group.state := field b "state" |}.

(** [group.save()]: an [UPDATE] of the attributes that [set] wrote,
    [WHERE id] is the instance's primary key. *)
Definition Group_save (group : Group.t) (rows : list Group.t)
  : list Group.t :=
  (λ g, if decide (Group.id g = Group.id group)
        then {| Group.id := Group.id g;
                Group.organizerId := Group.organizerId g;
                Group.name := Group.name group;
                Group.about := Group.about group;
                Group.type := Group.type group;
                Group.private := Group.private group;
                Group.city := Group.city group;
                Group.state := Group.state group |}
        else g) <$> rows.

Definition put_group_handler : handler := λ req db,
  match findByPk Group.id (groupId_param req) (Groups db) with
  | None => (Failed unhandled, db)
  | Some group =>
      let group := Group_set (body req) group in
      (Sent 200 (JObj (object (Group.attributes group))),
       with_Groups (Group_save group (Groups db)) db)
  end.

(** [PUT /groups/:groupId] *)
Definition put_group : handler :=
  route ([requireAuth; groupExists; isOrganizer] ++ validateGroup)
        put_group_handler.

(** Modelled from the spec: the associations of the [Group] and
    [Event] models are not part of the sources at hand. Destroying a
    group removes its memberships, images, venues and events, and the
    attendances and images of those events. *)
Definition Group_destroy (k : Z) (db : DB) : DB :=
  let gone := Event.id <$> filter (λ e, Event.groupId e = k) (Events db) in
  {| Groups := filter (λ g, Group.id g ≠ k) (Groups db);
     Memberships := filter (λ m, Membership.groupId m ≠ k) (Memberships db);
     GroupImages := filter (λ i, GroupImage.groupId i ≠ k) (GroupImages db);
     Venues := filter (λ v, Venue.groupId v ≠ k) (Venues db);
     Events := filter (λ e, Event.groupId e ≠ k) (Events db);
     Attendances := filter (λ a, Attendance.eventId a ∉ gone) (Attendances db);
     EventImages := filter (λ i, EventImage.eventId i ∉ gone) (EventImages db) |}.

Definition delete_group_handler : handler := λ req db,
  match findByPk Group.id (groupId_param req) (Groups db) with
  | None => (Failed unhandled, db)
  | Some group =>
      (Sent 200 (JObj {[ "message" := JVal (JStr "Successfully deleted") ]}),
       Group_destroy (Group.id group) db)
  end.

(** [DELETE /groups/:groupId] *)
Definition delete_group : handler :=
  route [requireAuth; groupExists; isOrganizer] delete_group_handler.

(** The instance that [Venue.create] returns holds [groupId] as it
    was given, the text of the path; the row holds the number. *)
Definition post_venue_handler : handler := λ req db,
  let b := body req in
  let venue :=
    {| Venue.id := next_id Venue.id (Venues db);
       Venue.groupId := groupId_param req;
       Venue.address := field b "address";
       Venue.city := field b "city";
       Venue.state := field b "state";
       Venue.lat := field b "lat";
       Venue.lng := field b "lng" |} in
  let safeVenue :=
    [("id", num (Venue.id venue));
     ("groupId", params_groupId req);
     ("address", Venue.address venue);
     ("city", Venue.city venue);
     ("state", Venue.state venue);
     ("lat", Venue.lat venue);
     ("lng", Venue.lng venue)] in
  (Sent 200 (JObj (res_json safeVenue)),
   with_Venues (Venues db ++ [venue]) db).

(** [POST /groups/:groupId/venues] *)
Definition post_venue : handler :=
  route ([requireAuth; groupExists; isOrgOrCo] ++ validateVenue)
        post_venue_handler.

(** ** The events of a group *)

Definition EventJoin : Type :=
  Event.t * option Attendance.t * option EventImage.t
  * option Group.t * option Venue.t.

Definition ej_event (r : EventJoin) : Event.t := r.1.1.1.1.
Definition ej_attendance (r : EventJoin) : option Attendance.t := r.1.1.1.2.
Definition ej_image (r : EventJoin) : option EventImage.t := r.1.1.2.
Definition ej_group (r : EventJoin) : option Group.t := r.1.2.
Definition ej_venue (r : EventJoin) : option Venue.t := r.2.

(** The four joins of the event listing; the conditions on the
    attendance status and on the preview flag are part of [ON]. *)
Definition events_join (db : DB) : list EventJoin :=
  left_outer_join
    (λ r v, bool_decide (Venue.id v = Event.venueId r.1.1.1))
    (left_outer_join
       (λ r g, bool_decide (Group.id g = Event.groupId r.1.1))
       (left_outer_join
          (λ r i, bool_decide (EventImage.eventId i = Event.id r.1
                               ∧ EventImage.preview i = JBool true))
          (left_outer_join
             (λ e a, bool_decide (Attendance.eventId a = Event.id e
                                  ∧ Attendance.status a = "attending"))
             (Events db) (Attendances db))
          (EventImages db))
       (Groups db))
    (Venues db).

Definition event_image_url (i : option EventImage.t) : jsval :=
  from_option EventImage.url JNull i.

Record EventRow := {
  event : Event.t;
  numAttending : nat;
  event_previewImage : jsval;
  event_Group : option Group.t;
  event_Venue : option Venue.t
}.

Definition EventKey : Type := Z * jsval * option Z * option Z.

(** [GROUP BY Event.id, EventImages.url, Group.id, Venue.id]. *)
Definition event_key (r : EventJoin) : EventKey :=
  (Event.id (ej_event r), event_image_url (ej_image r),
   Group.id <$> ej_group r, Venue.id <$> ej_venue r).

Definition events_select (rows : list EventJoin) : list EventRow :=
  omap (λ grp : EventKey * list EventJoin,
          match grp.2 with
          | r :: _ =>
              Some {| event := ej_event r;
                      numAttending :=
                        count (λ r, Attendance.id <$> ej_attendance r) grp.2;
                      event_previewImage := grp.1.1.1.2;
                      event_Group := ej_group r;
                      event_Venue := ej_venue r |}
          | [] => None
          end)
       (group_by event_key rows).

(** [Event.findAll] of the event listing, [WHERE Event.groupId =
    groupId]. *)
Definition findAll_events (groupId : Z) (db : DB) : list EventRow :=
  fold_rows (λ r, Event.id (event r)) []
    (events_select
       (filter (λ r, Event.groupId (ej_event r) = groupId) (events_join db))).

(** An included model with a list of attributes, [null] when the
    join found no row. *)
Definition nested {A} (attrs : A → list (string * jsval))
    (names : list string) (o : option A) : json :=
  match o with
  | Some a => JObj (object (only names (attrs a)))
  | None => JVal JNull
  end.

Definition EventRow_toJSON (r : EventRow) : json :=
  JObj (<[ "Group" := nested Group.attributes
                        ["id"; "name"; "city"; "state"] (event_Group r) ]>
       (<[ "Venue" := nested Venue.attributes
                        ["id"; "city"; "state"] (event_Venue r) ]>
       (object
          (except ["description"; "capacity"; "price";
                   "createdAt"; "updatedAt"]
                  (Event.attributes (event r))
           ++ [("numAttending", num (Z.of_nat (numAttending r)));
               ("previewImage", event_previewImage r)])))).

Definition events_handler : handler := λ req db,
  (Sent 200 (JArr (EventRow_toJSON <$> findAll_events (groupId_param req) db)),
   db).

(** [GET /groups/:groupId/events] *)
Definition get_group_events : handler :=
  route [requireAuth; groupExists] events_handler.

(** ** The venues of a group *)

(** [Group.findByPk(groupId, { include: Venue, attributes: [] })]: the
    group's row joined with its venues. The instance has no column of
    its own, and under [Venues] the venues of the joined rows, each
    once. *)
Definition venues_of_group (groupId : Z) (db : DB) : option (list Venue.t) :=
  let rows :=
    left_outer_join (λ g v, bool_decide (Venue.groupId v = Group.id g))
                    (filter (λ g, Group.id g = groupId) (Groups db))
                    (Venues db) in
  match rows with
  | [] => None
  | _ => Some (fold_rows Venue.id [] (omap snd rows))
  end.

Definition Venue_toJSON (v : Venue.t) : json :=
  JObj (object (except ["createdAt"; "updatedAt"] (Venue.attributes v))).

Definition venues_handler : handler := λ req db,
  match venues_of_group (groupId_param req) db with
  | Some venues =>
      (Sent 200 (JObj {[ "Venues" := JArr (Venue_toJSON <$> venues) ]}), db)
  | None => (Sent 200 (JVal JNull), db)
  end.

(** [GET /groups/:groupId/venues] *)
Definition get_venues : handler :=
  route [requireAuth; groupExists; isOrgOrCo] venues_handler.

(** ** Vocabulary of the statements *)

(** What [validateGroup] asks of the fields other than [about]. *)
Definition other_group_fields_valid (b : gmap string jsval) : Prop :=
  truthy (field b "name") = true
  ∧ (characters (toString (field b "name")) ≤ 60)%nat
  ∧ toString (field b "type") ∈ ["Online"; "In person"]
  ∧ field b "private" ≠ JUndefined
  ∧ toString (field b "private") ∈ ["true"; "false"; "1"; "0"]
  ∧ truthy (field b "city") = true
  ∧ truthy (field b "state") = true.

(** The preview images of a group. *)
Definition previews_of (gid : Z) (db : DB) : list GroupImage.t :=
  filter (λ i, GroupImage.groupId i = gid ∧ GroupImage.preview i = JBool true)
         (GroupImages db).

(** The attendances of an event that count as attending. *)
Definition attending_of (eid : Z) (db : DB) : list Attendance.t :=
  filter (λ a, Attendance.eventId a = eid
               ∧ Attendance.status a = "attending")
         (Attendances db).

(** The preview images of an event. *)
Definition event_previews_of (eid : Z) (db : DB) : list EventImage.t :=
  filter (λ i, EventImage.eventId i = eid ∧ EventImage.preview i = JBool true)
         (EventImages db).

(** The row [POST /groups] inserts for a principal and a body. *)
Definition created_group (u : User) (b : gmap string jsval) (db : DB)
  : Group.t :=
  {| Group.id := next_id Group.id (Groups db);
     Group.organizerId := user_id u;
     Group.name := field b "name";
     Group.about := field b "about";
     Group.type := field b "type";
     Group.private := BOOLEAN_sanitize (field b "private");
     Group.city := field b "city";
     Group.state := field b "state" |}.

(** The row [POST /groups/:groupId/venues] inserts for a request. *)
Definition created_venue (req : Request) (db : DB) : Venue.t :=
  {| Venue.id := next_id Venue.id (Venues db);
     Venue.groupId := groupId_param req;
     Venue.address := field (body req) "address";
     Venue.city := field (body req) "city";
     Venue.state := field (body req) "state";
     Venue.lat := field (body req) "lat";
     Venue.lng := field (body req) "lng" |}.

(** A value of the type of a text column, and a value that the ORM
    reads as a boolean. *)
Definition is_text (v : jsval) : Prop := ∃ s, v = JStr s.

Definition is_flag (v : jsval) : Prop := ∃ p, BOOLEAN_sanitize v = JBool p.

(** The routes mounted behind [requireAuth, groupExists, isOrganizer]. *)
Definition organizer_routes : list handler :=
  [post_image; put_group; delete_group].

(** The routes of the file that are modelled. *)
Definition all_routes : list handler :=
  [get_groups; get_current; post_group; post_image; put_group;
   delete_group; post_venue; get_group_events].


End Routes.
Export Routes.

(* ===================================================================== *)
(** * [components/SingleGroupPage]: past and upcoming events              *)
(* ===================================================================== *)

Module Frontend.

(** The fields of a stored event that the page reads. *)
Record event := {
  id : Z;
  groupId : Z;
  startDate : string
}.

#[global] Instance event_eq_dec : EqDecision event.
Proof. solve_decision. Defined.

Section GetTimeEvents.

(** [Date.parse]: the time value of a date string in milliseconds
    since the epoch, [None] for [NaN]. [new Date(s)] and
    [Date.parse(s)] read a string the same way. *)
Variable Date_parse : string → option Z.

(** [clock i] is what the [i]-th [new Date()] of a call reads. *)
Variable clock : nat → Z.

(** [current > eventDate] on two dates: both are turned into time
    values, and a comparison with [NaN] is false. *)
Definition date_gt (current : Z) (eventDate : option Z) : bool :=
  match eventDate with
  | Some t => bool_decide (t < current)
  | None => false
  end.

(** The [for ... of] loop; [i] counts the iterations done. *)
Fixpoint partition_events (i : nat) (events pastEvents upcomingEvents : list event)
  : list event * list event :=
  match events with
  | [] => (pastEvents, upcomingEvents)
  | event :: rest =>
      let current := clock i in
      let eventDate := Date_parse (startDate event) in
      if date_gt current eventDate
      then partition_events (S i) rest (pastEvents ++ [event]) upcomingEvents
      else partition_events (S i) rest pastEvents (upcomingEvents ++ [event])
  end.

(** [sorter]: the difference of the two parsed dates, [NaN] when one
    of them does not parse. *)
Definition sorter (a b : event) : option Z :=
  match Date_parse (startDate a), Date_parse (startDate b) with
  | Some x, Some y => Some (x - y)
  | _, _ => None
  end.

(** [Array.prototype.sort(comparefn)] is a stable comparison sort in
    which a result of [NaN] counts as [0]: [a] stays before [b]
    unless [comparefn(a, b) > 0]. It is modelled by insertion; with
    a consistent comparator every stable sort returns this list.
    With a comparator that is not consistent, as [sorter] is on a
    list in which a date does not parse, the language leaves the
    order to the engine, and an engine's sort may return another
    order than insertion does. *)
Definition stays_before (comparefn : event → event → option Z)
    (a b : event) : bool :=
  match comparefn a b with
  | Some v => bool_decide (v ≤ 0)
  | None => true
  end.

Fixpoint sort_insert (comparefn : event → event → option Z)
    (x : event) (l : list event) : list event :=
  match l with
  | [] => [x]
  | y :: r =>
      if stays_before comparefn x y then x :: y :: r
      else y :: sort_insert comparefn x r
  end.

Definition Array_sort (comparefn : event → event → option Z)
    (l : list event) : list event :=
  foldr (sort_insert comparefn) [] l.

(** [getTimeEvents(events)]; the result is the pair
    [(pastEvents, upcomingEvents)] it leaves in the two variables
    of the component. *)
Definition getTimeEvents (events : list event) : list event * list event :=
  let '(pastEvents, upcomingEvents) := partition_events 0 events [] [] in
  (Array_sort sorter pastEvents, Array_sort sorter upcomingEvents).

(** ** Vocabulary of the statements *)

(** The start date parses, to a time before [now]. *)
Definition starts_before (now : Z) (e : event) : Prop :=
  match Date_parse (startDate e) with
  | Some t => t < now
  | None => False
  end.

#[global] Instance starts_before_dec now e : Decision (starts_before now e).
Proof. unfold starts_before. destruct (Date_parse _); apply _. Defined.



End GetTimeEvents.

(** ** Date-only strings

    [Date.parse] on the form [YYYY-MM-DD]: midnight UTC of that day
    of the calendar. A day up to 31 that is past the end of its month
    counts on into the next month, as the engine of Node reads it
    (the language leaves such a string to the engine). It serves as
    the parser of the examples; every other string is left to [None]
    here. *)

(** Days from 1970-01-01 to the given civil date. *)
Definition days_from_civil (y m d : Z) : Z :=
  let y' := if m <=? 2 then y - 1 else y in
  let era := y' `div` 400 in
  let yoe := y' - era * 400 in
  let doy := (153 * (if 2 <? m then m - 3 else m + 9) + 2) `div` 5 + d - 1 in
  let doe := yoe * 365 + yoe `div` 4 - yoe `div` 100 + doy in
  era * 146097 + doe - 719468.

Definition fixed_digits (n : nat) (s : string) : option (Z * string) :=
  let '(ds, rest) := take_digits s in
  if bool_decide (length ds = n) then Some (digits_value ds, rest) else None.

Definition parse_date_only (s : string) : option Z :=
  '(y, s1) ← fixed_digits 4 s;
  match s1 with
  | String "-" s2 =>
      '(m, s3) ← fixed_digits 2 s2;
      match s3 with
      | String "-" s4 =>
          '(d, s5) ← fixed_digits 2 s4;
          if bool_decide (s5 = "" ∧ 1 ≤ m ≤ 12 ∧ 1 ≤ d ≤ 31)
          then Some (days_from_civil y m d * 86400000)
          else None
      | _ => None
      end
  | _ => None
  end.

(** ** [components/SingleGroupPage]: the panel of events *)

(** What the panel shows: the three headings, and one preview per
    listed event. *)
Inductive panel_item :=
| NoUpcomingEvents
| UpcomingHeading (n : nat)
| PastHeading (n : nat)
| EventPreview (e : event).

(** The last [div] of the page. Each of the three parts is rendered
    or left out on the [length] of a list; the third looks at
    [upcomingEvents] like the second. *)
Definition events_panel (events pastEvents upcomingEvents : list event)
  : list panel_item :=
  (if bool_decide (length events ≠ 0%nat) then []
   else [NoUpcomingEvents])
  ++ (if bool_decide (length upcomingEvents ≠ 0%nat)
      then UpcomingHeading (length upcomingEvents)
           :: (EventPreview <$> upcomingEvents)
      else [])
  ++ (if bool_decide (length upcomingEvents ≠ 0%nat)
      then PastHeading (length pastEvents)
           :: (EventPreview <$> pastEvents)
      else []).

(** The panel of a render: [getTimeEvents(events)] runs first and the
    panel reads the two lists it left. *)
Definition render_events_panel (Date_parse : string → option Z)
    (clock : nat → Z) (events : list event) : list panel_item :=
  let '(pastEvents, upcomingEvents) :=
    getTimeEvents Date_parse clock events in
  events_panel events pastEvents upcomingEvents.

(** ** [components/CreateGroupPage]: the location field *)

(** [s.split(sep)] for a separator that is not empty: [acc] is the
    piece being read, and [skip] counts the characters of a separator
    just found that are still to be passed over. *)
Fixpoint split_from (sep s acc : string) (skip : nat) : list string :=
  match s with
  | EmptyString => [acc]
  | String c r =>
      match skip with
      | S k => split_from sep r acc k
      | O =>
          if String.prefix sep s
          then acc :: split_from sep r "" (String.length sep - 1)
          else split_from sep r (acc +:+ String c "") 0
      end
  end.

Definition String_split (sep s : string) : list string :=
  split_from sep s "" 0.

(** [a[i]] on an array of strings. *)
Definition element (a : list string) (i : nat) : jsval :=
  match a !! i with
  | Some s => JStr s
  | None => JUndefined
  end.

(** [changeLocation(location)]; the result is the pair of values it
    hands to [setCity] and [setState]. *)
Definition changeLocation (location : string) : jsval * jsval :=
  let location := String_split ", " location in
  (element location 0, element location 1).

(** [sep] occurs somewhere in [s]. *)
Fixpoint occurs (sep s : string) : bool :=
  match s with
  | EmptyString => String.prefix sep s
  | String _ r => String.prefix sep s || occurs sep r
  end.

End Frontend.

(* ===================================================================== *)
(** * Sample data                                                         *)
(* ===================================================================== *)

Module Samples.

Definition alice : User :=
  {| user_id := 10; firstName := "Alice"; lastName := "Ames";
     username := "alice" |}.

Definition bob : User :=
  {| user_id := 20; firstName := "Bob"; lastName := "Birch";
     username := "bobby" |}.

Definition carol : User :=
  {| user_id := 30; firstName := "Carol"; lastName := "Cole";
     username := "carol" |}.

(** 49 and 50 characters. *)
Definition about49 : string :=
  "We walk the coast path every other Sunday morning".

Definition about50 : string :=
  "We walk the coast path every other Sunday morning.".

Definition group_body (about : string) : gmap string jsval :=
  {[ "name" := JStr "Coast walkers";
     "about" := JStr about;
     "type" := JStr "In person";
     "private" := JBool false;
     "city" := JStr "Brighton";
     "state" := JStr "Sussex" ]}.

(** A body as the form of the create-group page sends it, with the
    flag as a text. *)
Definition changed_body : gmap string jsval :=
  {[ "name" := JStr "Night walkers";
     "about" := JStr about50;
     "type" := JStr "Online";
     "private" := JStr "true";
     "city" := JStr "Hove";
     "state" := JStr "Sussex" ]}.

Definition venue_body (lat lng : jsval) : gmap string jsval :=
  {[ "address" := JStr "1 Marine Parade";
     "city" := JStr "Brighton";
     "state" := JStr "Sussex";
     "lat" := lat;
     "lng" := lng ]}.

Definition walkers : Group.t :=
  {| Group.id := 1; Group.organizerId := 10;
     Group.name := JStr "Coast walkers"; Group.about := JStr about50;
     Group.type := JStr "In person"; Group.private := JBool false;
     Group.city := JStr "Brighton"; Group.state := JStr "Sussex" |}.

Definition readers : Group.t :=
  {| Group.id := 2; Group.organizerId := 20;
     Group.name := JStr "Slow readers"; Group.about := JStr about50;
     Group.type := JStr "Online"; Group.private := JBool true;
     Group.city := JStr "Leeds"; Group.state := JStr "Yorkshire" |}.

Definition member (i g u : Z) (s : string) : Membership.t :=
  {| Membership.id := i; Membership.groupId := g;
     Membership.userId := u; Membership.status := s |}.

Definition image (i g : Z) (u : string) (p : bool) : GroupImage.t :=
  {| GroupImage.id := i; GroupImage.groupId := g;
     GroupImage.url := JStr u; GroupImage.preview := JBool p |}.

Definition pier : Venue.t :=
  {| Venue.id := 3; Venue.groupId := 1;
     Venue.address := JStr "1 Marine Parade";
     Venue.city := JStr "Brighton"; Venue.state := JStr "Sussex";
     Venue.lat := JNum (Q2Qc (254 # 5)); Venue.lng := JNum (Q2Qc (-1 # 10)) |}.

Definition walk : Event.t :=
  {| Event.id := 5; Event.groupId := 1; Event.venueId := 3;
     Event.name := "Pier to marina"; Event.startDate := "2099-01-01";
     Event.description := "Bring a coat."; Event.capacity := 12;
     Event.price := Q2Qc 0;
     Event.createdAt := "2024-01-01"; Event.updatedAt := "2024-01-01" |}.

Definition attendance (i e u : Z) (s : string) : Attendance.t :=
  {| Attendance.id := i; Attendance.eventId := e;
     Attendance.userId := u; Attendance.status := s |}.

Definition event_image (i e : Z) (u : string) (p : bool) : EventImage.t :=
  {| EventImage.id := i; EventImage.eventId := e;
     EventImage.url := JStr u; EventImage.preview := JBool p |}.

(** Two groups; bob and carol are members of alice's group, which has
    one preview image and one venue with one event. *)
Definition db : DB :=
  {| Groups := [walkers; readers];
     Memberships := [member 1 1 20 "member"; member 2 1 30 "pending"];
     GroupImages := [image 1 1 "pier.png" true; image 2 1 "map.png" false];
     Venues := [pier];
     Events := [walk];
     Attendances := [attendance 1 5 20 "attending";
                     attendance 2 5 30 "pending"];
     EventImages := [event_image 1 5 "walk.png" true] |}.

(** The same with the preview image of alice's group stored twice. *)
Definition db_twice : DB :=
  with_GroupImages [image 1 1 "pier.png" true; image 2 1 "pier.png" true] db.

(** The same with the preview image of the event stored twice. *)
Definition db_event_twice : DB :=
  {| Groups := Groups db; Memberships := Memberships db;
     GroupImages := GroupImages db; Venues := Venues db;
     Events := Events db; Attendances := Attendances db;
     EventImages := [event_image 1 5 "walk.png" true;
                     event_image 2 5 "walk.png" true] |}.

(** The same without the venue of the event. *)
Definition db_no_venue : DB := with_Venues [] db.

(** Events of the page; [now] is the first millisecond of 2027. *)
Definition page_event (i : Z) (s : string) : Frontend.event :=
  {| Frontend.id := i; Frontend.groupId := 1; Frontend.startDate := s |}.

Definition now : Z := 1798761600000.

Definition mk_request (u : option User) (g : Z) (b : gmap string jsval)
  : Request :=
  {| user := u; groupId_param := g; body := b |}.

End Samples.

(* ===================================================================== *)
(** * Properties                                                          *)
(* ===================================================================== *)

(** Closes a decidable goal about concrete data by evaluation. *)
Ltac by_computation :=
  refine (bool_decide_unpack _ _); vm_compute; exact I.

(** ** Running a list of middlewares *)

Section Running.

Lemma run_failed (mws : list middleware) (e : HttpError) (db : DB) :
  foldl (λ acc mw, c ← acc; mw c db) (inl e : step Context) mws = inl e.
Proof. induction mws as [|mw mws IH]; [done|]. simpl. exact IH. Qed.

Lemma run_cons (mw : middleware) (mws : list middleware) ctx db :
  run (mw :: mws) ctx db
  = match mw ctx db with
    | inl e => inl e
    | inr c => run mws c db
    end.
Proof.
  unfold run. simpl. unfold mbind at 2, step_bind at 2. simpl.
  destruct (mw ctx db) as [e|c]; [apply run_failed | done].
Qed.

Lemma run_nil ctx db : run [] ctx db = inr ctx.
Proof. done. Qed.

Lemma run_app (a b : list middleware) ctx db :
  run (a ++ b) ctx db
  = match run a ctx db with
    | inl e => inl e
    | inr c => run b c db
    end.
Proof.
  revert ctx. induction a as [|mw a IH]; intros ctx; [done|].
  rewrite <- app_comm_cons, !run_cons.
  destruct (mw ctx db) as [e|c]; [done | apply IH].
Qed.

(** Mounted chains never fail; they add their reports in order. *)
Lemma run_mount (cs : list chain) ctx db :
  run (mount <$> cs) ctx db
  = inr {| request := request ctx;
           validation :=
             validation ctx ++ validationResult (body (request ctx)) cs |}.
Proof.
  revert ctx. induction cs as [|c cs IH]; intros ctx.
  - simpl. unfold validationResult. simpl. rewrite app_nil_r.
    by destruct ctx.
  - rewrite fmap_cons, run_cons. unfold mount at 1. simpl.
    rewrite IH. simpl. unfold validationResult. simpl.
    by rewrite <- app_assoc.
Qed.

End Running.

(** ** The validator chains *)

Section Validation.

Implicit Types (body : gmap string jsval) (c : chain).

Lemma run_chain_param body c kv : kv ∈ run_chain body c → kv.1 = param c.
Proof.
  unfold run_chain. rewrite list_elem_of_omap. intros (t & _ & Ht).
  destruct (test t _); [done|]. by inversion Ht.
Qed.

Lemma foldl_insert_lookup_ne (errs : list (string * string))
    (m : gmap string string) k :
  k ∉ errs.*1 →
  foldl (λ m kv, <[kv.1 := kv.2]> m) m errs !! k = m !! k.
Proof.
  revert m. induction errs as [|[k' v'] errs IH]; intros m Hk; [done|].
  simpl in *. apply not_elem_of_cons in Hk as [Hne Hk].
  rewrite IH by done. by rewrite lookup_insert_ne.
Qed.

Lemma error_map_last (pre post : list (string * string)) k v :
  k ∉ post.*1 → error_map (pre ++ (k, v) :: post) !! k = Some v.
Proof.
  intros Hk. unfold error_map. rewrite foldl_app. simpl.
  rewrite foldl_insert_lookup_ne by done. apply lookup_insert_eq.
Qed.

Lemma handleValidationErrors_spec ctx db :
  handleValidationErrors ctx db
  = match validation ctx with
    | [] => inr ctx
    | _ => inl (http_error 400 (error_map (validation ctx)))
    end.
Proof. unfold handleValidationErrors. by destruct (validation ctx). Qed.

(** A list of chains followed by [handleValidationErrors] passes
    exactly when no chain reports, and fails with 400 otherwise. *)
Lemma run_validate (cs : list chain) (req : Request) db :
  run ((mount <$> cs) ++ [handleValidationErrors])
      {| request := req; validation := [] |} db
  = match validationResult (body req) cs with
    | [] => inr {| request := req; validation := [] |}
    | errs => inl (http_error 400 (error_map errs))
    end.
Proof.
  rewrite run_app, run_mount. simpl.
  rewrite run_cons, handleValidationErrors_spec. simpl.
  by destruct (validationResult (body req) cs).
Qed.

End Validation.

(** ** Group creation: the boundary of [about] *)

Section PostGroup.

(** The key of a new row is above the keys of the table. *)
Lemma next_id_fresh {A} (pk : A → Z) (rows : list A) (a : A) :
  a ∈ rows → pk a < next_id pk rows.
Proof.
  unfold next_id. induction rows as [|x rows IH]; intros Ha.
  - by apply elem_of_nil in Ha.
  - rewrite fmap_cons. simpl. apply elem_of_cons in Ha as [-> | Ha].
    + lia.
    + specialize (IH Ha). lia.
Qed.

Lemma created_group_fresh (u : User) (b : gmap string jsval) db :
  created_group u b db ∉ Groups db.
Proof.
  intros Hin. apply (next_id_fresh Group.id) in Hin. simpl in Hin. lia.
Qed.

Implicit Types (b : gmap string jsval) (s : string).

#[local] Arguments validationResult : simpl never.

(** A chain with one or two validators, as the routes build them. *)
Lemma run_chain_1 b f t m :
  run_chain b (check f .> custom t .> withMessage m)
  = if t (field b f) then [] else [(f, m)].
Proof. unfold run_chain. simpl. by destruct (t (field b f)). Qed.

Lemma run_chain_2 b f t1 t2 m :
  run_chain b (check f .> custom t1 .> custom t2 .> withMessage m)
  = (if t1 (field b f) then [] else [(f, "Invalid value")])
    ++ (if t2 (field b f) then [] else [(f, m)]).
Proof.
  unfold run_chain. simpl.
  by destruct (t1 (field b f)), (t2 (field b f)).
Qed.

Lemma about_short b s :
  field b "about" = JStr s → (characters s < 50)%nat →
  length_ok (Some 50%nat) None (field b "about") = false.
Proof.
  intros -> Hlen. unfold length_ok. simpl.
  rewrite bool_decide_eq_false_2; [done | lia].
Qed.

Lemma about_long b s :
  field b "about" = JStr s → (50 ≤ characters s)%nat →
  present true (field b "about") = true
  ∧ length_ok (Some 50%nat) None (field b "about") = true.
Proof.
  intros -> Hlen. unfold length_ok, present. simpl. split.
  - rewrite bool_decide_eq_false_2; [done|].
    intros ->. simpl in Hlen. lia.
  - rewrite bool_decide_eq_true_2; [done | lia].
Qed.

(** With the other fields in order, only the [about] chain can
    report. *)
Lemma other_checks_pass b :
  other_group_fields_valid b →
  validationResult b group_checks
  = (if present true (field b "about") then []
     else [("about", "Invalid value")])
    ++ (if length_ok (Some 50%nat) None (field b "about") then []
        else [("about", "About must be 50 characters or more")]).
Proof.
  intros (Hn & Hnl & Ht & Hp & Hpb & Hc & Hs).
  unfold validationResult, group_checks.
  rewrite !bind_cons. change ([] ≫= run_chain b) with (@nil (string * string)).
  unfold exists_, isLength, isIn, isBoolean.
  rewrite !run_chain_2, !run_chain_1.
  unfold present at 1 3 4 5, length_ok at 1, among.
  rewrite Hn, Hc, Hs.
  rewrite (bool_decide_eq_false_2 _ Hp).
  rewrite !bool_decide_eq_true_2 by (done || simpl; lia).
  simpl. by rewrite !app_nil_r.
Qed.

Lemma later_checks_not_about b :
  "about" ∉ (drop 2 group_checks ≫= run_chain b).*1.
Proof.
  intros Hin. apply list_elem_of_fmap in Hin as ([k v] & Hk & Hin).
  simpl in Hk. subst k.
  apply list_elem_of_bind in Hin as (c & Hin & Hc).
  apply run_chain_param in Hin. simpl in Hin.
  unfold group_checks in Hc. simpl in Hc.
  repeat (apply elem_of_cons in Hc as [-> | Hc]; [by simpl in Hin|]).
  by apply elem_of_nil in Hc.
Qed.

Lemma validationResult_split b :
  validationResult b group_checks
  = run_chain b (check "name" .> custom (present true)
                   .> custom (length_ok None (Some 60%nat))
                   .> withMessage "Name must be 60 characters or less")
    ++ run_chain b (check "about" .> custom (present true)
                      .> custom (length_ok (Some 50%nat) None)
                      .> withMessage "About must be 50 characters or more")
    ++ (drop 2 group_checks ≫= run_chain b).
Proof. reflexivity. Qed.

Lemma post_group_run (req : Request) db (u : User) :
  user req = Some u →
  post_group req db
  = match validationResult (body req) group_checks with
    | [] => post_group_handler req db
    | errs => (Failed (http_error 400 (error_map errs)), db)
    end.
Proof.
  intros Hu. unfold post_group, route.
  rewrite run_app, run_cons. unfold requireAuth at 1. simpl.
  rewrite Hu. simpl. unfold validateGroup. rewrite run_validate.
  by destruct (validationResult (body req) group_checks).
Qed.

(** C8. Group creation by an authenticated principal with a string
    [about]: when it has fewer than 50 characters (49 in particular)
    the request ends with 400, the error map names [about], and the
    database is the one before; when it has 50 characters or more the
    length check of [about] passes and, the other fields being valid,
    the answer is 200 and the group is created: the table of groups
    afterwards is the one before with one row more, the row of the
    request, which was not in the table. *)
Theorem post_group_about_boundary (req : Request) (db : DB) (u : User) s :
  user req = Some u →
  field (body req) "about" = JStr s →
  ((characters s < 50)%nat →
     ∃ e, post_group req db = (Failed e, db)
          ∧ err_status e = 400
          ∧ err_errors e !! "about"
            = Some "About must be 50 characters or more")
  ∧ ((50 ≤ characters s)%nat →
     length_ok (Some 50%nat) None (field (body req) "about") = true
     ∧ (other_group_fields_valid (body req) →
        ∃ payload,
          (post_group req db).1 = Sent 200 payload
          ∧ created_group u (body req) db ∈ Groups (post_group req db).2
          ∧ (created_group u (body req) db ∉ Groups db)
          ∧ Groups (post_group req db).2
            = Groups db ++ [created_group u (body req) db]
          ∧ Group.about (created_group u (body req) db) = JStr s
          ∧ Group.organizerId (created_group u (body req) db) = user_id u)).
Proof.
  intros Hu Hf. split.
  - intros Hlen. rewrite (post_group_run _ _ _ Hu).
    pose proof (about_short _ _ Hf Hlen) as Hshort.
    assert (∃ pre post,
               validationResult (body req) group_checks
               = pre ++ ("about", "About must be 50 characters or more") :: post
               ∧ "about" ∉ post.*1) as (pre & post & Heq & Hpost).
    { rewrite validationResult_split, !run_chain_2, Hshort.
      exists (((if present true (field (body req) "name") then []
                else [("name", "Invalid value")])
               ++ (if length_ok None (Some 60%nat) (field (body req) "name")
                   then []
                   else [("name", "Name must be 60 characters or less")]))
              ++ (if present true (field (body req) "about") then []
                  else [("about", "Invalid value")])),
             (drop 2 group_checks ≫= run_chain (body req)).
      split; [|apply later_checks_not_about].
      by rewrite <- !app_assoc. }
    rewrite Heq. destruct (pre ++ _ :: post) as [|kv errs] eqn:E.
    { by destruct pre. }
    eexists. split; [done|]. split; [done|].
    simpl. rewrite <- E. by apply error_map_last.
  - intros Hlen. destruct (about_long _ _ Hf Hlen) as [Hp Hl].
    split; [done|]. intros Hothers.
    rewrite (post_group_run _ _ _ Hu), (other_checks_pass _ Hothers).
    rewrite Hp, Hl. simpl. unfold post_group_handler. rewrite Hu.
    eexists. split; [reflexivity|]. simpl.
    change {| Group.id := next_id Group.id (Groups db);
              Group.organizerId := user_id u;
              Group.name := field (body req) "name";
              Group.about := field (body req) "about";
              Group.type := field (body req) "type";
              Group.private := BOOLEAN_sanitize (field (body req) "private");
              Group.city := field (body req) "city";
              Group.state := field (body req) "state" |}
      with (created_group u (body req) db).
    split; [apply elem_of_app; right; apply list_elem_of_here|].
    split; [apply created_group_fresh|].
    split; [done|]. split; [exact Hf | done].
Qed.

End PostGroup.

(** ** Venue creation: latitude and longitude *)

Section PostVenue.

Import Samples.

(** What the two chains accept of a number. *)
Lemma lat_number (q : Qc) :
  present true (JNum q) && float_between (-89) 91 (JNum q) = true
  ↔ q ≠ Q2Qc 0 ∧ (Q2Qc (inject_Z (-89)) < q)%Qc ∧ (q < Q2Qc (inject_Z 91))%Qc.
Proof.
  unfold present, float_between, truthy.
  rewrite !andb_true_iff, negb_true_iff, bool_decide_eq_false,
    !bool_decide_eq_true. tauto.
Qed.

Lemma lng_number (q : Qc) :
  present true (JNum q) && float_between (-179) 181 (JNum q) = true
  ↔ q ≠ Q2Qc 0 ∧ (Q2Qc (inject_Z (-179)) < q)%Qc ∧ (q < Q2Qc (inject_Z 181))%Qc.
Proof.
  unfold present, float_between, truthy.
  rewrite !andb_true_iff, negb_true_iff, bool_decide_eq_false,
    !bool_decide_eq_true. tauto.
Qed.

(** A latitude of -90 is refused with the message of the range
    check, and nothing is stored. *)
Example post_venue_lat_minus_90 :
  post_venue (mk_request (Some alice) 1 (venue_body (num (-90)) (num 10))) db
  = (Failed (http_error 400 {[ "lat" := "Latitude is not valid" ]}), db).
Proof. vm_compute. reflexivity. Qed.

(** The same latitude sent as a string of digits is accepted. *)
Example post_venue_lat_string_zero :
  status_of (post_venue (mk_request (Some alice) 1
                           (venue_body (JStr "0") (num 10))) db).1 = 200.
Proof. vm_compute. reflexivity. Qed.

(** C7. A venue with [lat: 0] and every other field valid is refused:
    the presence check of the [lat] chain treats the number [0] as a
    missing value, so the request ends with 400 on [lat] although 0
    lies between -89 and 91, and no venue is stored. *)
Theorem post_venue_lat_zero_refused :
  post_venue (mk_request (Some alice) 1 (venue_body (num 0) (num 10))) db
  = (Failed (http_error 400 {[ "lat" := "Invalid value" ]}), db).
Proof. vm_compute. reflexivity. Qed.

End PostVenue.

Section PostGroupWitness.

Import Samples.

Lemma post_group_about_boundary_witness :
  (∃ e, post_group (mk_request (Some alice) 0 (group_body about49)) db
        = (Failed e, db)
        ∧ err_status e = 400
        ∧ err_errors e !! "about"
          = Some "About must be 50 characters or more")
  ∧ (∃ payload,
       (post_group (mk_request (Some alice) 0 (group_body about50)) db).1
       = Sent 200 payload
       ∧ created_group alice (group_body about50) db
         ∈ Groups (post_group (mk_request (Some alice) 0
                                 (group_body about50)) db).2
       ∧ (created_group alice (group_body about50) db ∉ Groups db)
       ∧ Groups (post_group (mk_request (Some alice) 0
                               (group_body about50)) db).2
         = Groups db ++ [created_group alice (group_body about50) db]
       ∧ Group.about (created_group alice (group_body about50) db)
         = JStr about50
       ∧ Group.organizerId (created_group alice (group_body about50) db)
         = user_id alice).
Proof.
  split.
  - apply (post_group_about_boundary
             (mk_request (Some alice) 0 (group_body about49)) db alice about49);
      [reflexivity | vm_compute; reflexivity | vm_compute; lia].
  - apply (post_group_about_boundary
             (mk_request (Some alice) 0 (group_body about50)) db alice about50);
      [reflexivity | vm_compute; reflexivity | vm_compute; lia |].
    unfold other_group_fields_valid.
    repeat split; try (vm_compute; (reflexivity || lia || discriminate)).
    + apply list_elem_of_In. vm_compute. tauto.
    + apply list_elem_of_In. vm_compute. tauto.
Defined.

End PostGroupWitness.

(** ** The guards of the organizer's routes *)

Section Guards.

Import Samples.

Example about_lengths :
  characters about49 = 49%nat ∧ characters about50 = 50%nat.
Proof. split; reflexivity. Qed.

(** What the three guards decide, in the order they are mounted. *)
Lemma organizer_guards (req : Request) (db : DB) :
  run [requireAuth; groupExists; isOrganizer]
      {| request := req; validation := [] |} db
  = match user req with
    | None => inl (http_error 401 ∅)
    | Some u =>
        match findByPk Group.id (groupId_param req) (Groups db) with
        | None => inl not_found
        | Some g =>
            if bool_decide (Group.organizerId g = user_id u)
            then inr {| request := req; validation := [] |}
            else inl (http_error 403 ∅)
        end
    end.
Proof.
  rewrite run_cons. unfold requireAuth. simpl.
  destruct (user req) as [u|] eqn:Hu; [|done]. simpl.
  rewrite run_cons. unfold groupExists. simpl.
  destruct (findByPk _ _ _) as [g|] eqn:Hg; [|done]. simpl.
  rewrite run_cons. unfold isOrganizer. simpl. rewrite Hg, Hu. simpl.
  by destruct (bool_decide _).
Qed.

Lemma validate_status (cs : list chain) (req : Request) db e :
  run ((mount <$> cs) ++ [handleValidationErrors])
      {| request := req; validation := [] |} db = inl e →
  err_status e = 400.
Proof.
  rewrite run_validate.
  destruct (validationResult _ _); [done|]. by intros [= <-].
Qed.

(** The status of each of the three routes once the guards passed. *)
Lemma organizer_route_passed (R : handler) (req : Request) (db : DB) u g :
  R ∈ organizer_routes →
  user req = Some u →
  findByPk Group.id (groupId_param req) (Groups db) = Some g →
  Group.organizerId g = user_id u →
  status_of (R req db).1 = 200 ∨ status_of (R req db).1 = 400.
Proof.
  intros HR Hu Hg Ho. unfold organizer_routes in HR.
  apply elem_of_cons in HR as [-> | HR];
    [| apply elem_of_cons in HR as [-> | HR];
       [| apply list_elem_of_singleton in HR as ->]].
  - unfold post_image, route. rewrite organizer_guards, Hu, Hg.
    rewrite bool_decide_eq_true_2 by done. by left.
  - unfold put_group, route.
    rewrite run_app, organizer_guards, Hu, Hg.
    rewrite bool_decide_eq_true_2 by done.
    destruct (run validateGroup _ db) as [e|c] eqn:Hv.
    + right. simpl. by apply validate_status in Hv.
    + left. unfold put_group_handler. by rewrite Hg.
  - unfold delete_group, route. rewrite organizer_guards, Hu, Hg.
    rewrite bool_decide_eq_true_2 by done.
    left. unfold delete_group_handler. by rewrite Hg.
Qed.

Lemma organizer_route_refused (R : handler) (req : Request) (db : DB) e :
  R ∈ organizer_routes →
  run [requireAuth; groupExists; isOrganizer]
      {| request := req; validation := [] |} db = inl e →
  R req db = (Failed e, db).
Proof.
  intros HR He. unfold organizer_routes in HR.
  apply elem_of_cons in HR as [-> | HR];
    [| apply elem_of_cons in HR as [-> | HR];
       [| apply list_elem_of_singleton in HR as ->]].
  - unfold post_image, route. by rewrite He.
  - unfold put_group, route. by rewrite run_app, He.
  - unfold delete_group, route. by rewrite He.
Qed.

(** C4. On each route mounted behind the three guards (adding an
    image, updating and deleting a group): without a principal the
    answer is 401, whatever the id; with a principal and an id that
    has no group it is 404, whoever the principal; with a principal
    who is not the organizer of the existing group it is 403; and a
    403 is only ever the answer for an existing group. A refused
    request leaves the database as it was. *)
Theorem organizer_routes_guarded (R : handler) (req : Request) (db : DB) :
  R ∈ organizer_routes →
  (user req = None → R req db = (Failed (http_error 401 ∅), db))
  ∧ (is_Some (user req) →
     findByPk Group.id (groupId_param req) (Groups db) = None →
     R req db = (Failed not_found, db) ∧ err_status not_found = 404)
  ∧ (∀ u g, user req = Some u →
       findByPk Group.id (groupId_param req) (Groups db) = Some g →
       Group.organizerId g ≠ user_id u →
       R req db = (Failed (http_error 403 ∅), db))
  ∧ (status_of (R req db).1 = 403 →
     is_Some (user req)
     ∧ is_Some (findByPk Group.id (groupId_param req) (Groups db))).
Proof.
  intros HR. pose proof (organizer_guards req db) as Hrun.
  split; [|split; [|split]].
  - intros Hu. rewrite Hu in Hrun. by apply organizer_route_refused.
  - intros [u Hu] Hg. rewrite Hu, Hg in Hrun.
    split; [by apply organizer_route_refused | done].
  - intros u g Hu Hg Hne. rewrite Hu, Hg in Hrun.
    rewrite bool_decide_eq_false_2 in Hrun by done.
    by apply organizer_route_refused.
  - intros H403. destruct (user req) as [u|] eqn:Hu.
    + split; [done|].
      destruct (findByPk _ _ _) as [g|] eqn:Hg; [done|].
      by rewrite (organizer_route_refused R req db _ HR Hrun) in H403.
    + by rewrite (organizer_route_refused R req db _ HR Hrun) in H403.
Qed.

Lemma organizer_routes_guarded_witness :
  delete_group (mk_request None 7 ∅) db = (Failed (http_error 401 ∅), db)
  ∧ delete_group (mk_request (Some bob) 7 ∅) db = (Failed not_found, db)
  ∧ delete_group (mk_request (Some bob) 1 ∅) db
    = (Failed (http_error 403 ∅), db).
Proof.
  assert (delete_group ∈ organizer_routes) as HR
    by (unfold organizer_routes; set_solver).
  split; [|split].
  - apply (organizer_routes_guarded delete_group
             (mk_request None 7 ∅) db HR).
    reflexivity.
  - apply (organizer_routes_guarded delete_group
             (mk_request (Some bob) 7 ∅) db HR);
      [by eexists | reflexivity].
  - destruct (organizer_routes_guarded delete_group
                (mk_request (Some bob) 1 ∅) db HR) as (_ & _ & H403 & _).
    apply (H403 bob walkers);
      [reflexivity | reflexivity | vm_compute; discriminate].
Defined.

End Guards.

(** ** Updating a group *)

Section PutGroup.

Import Samples.

Lemma findByPk_Some {A} (pk : A → Z) k (rows : list A) (r : A) :
  findByPk pk k rows = Some r → r ∈ rows ∧ pk r = k.
Proof.
  unfold findByPk. intros Hh. apply head_Some_elem_of in Hh.
  by apply list_elem_of_filter in Hh as [? ?].
Qed.

Lemma findByPk_None {A} (pk : A → Z) k (rows : list A) :
  findByPk pk k rows = None ↔ ∀ r, r ∈ rows → pk r ≠ k.
Proof.
  unfold findByPk. rewrite head_None. split.
  - intros Hf r Hr Hk.
    assert (r ∈ filter (λ r, pk r = k) rows) as Hin
      by (by apply list_elem_of_filter).
    rewrite Hf in Hin. by apply elem_of_nil in Hin.
  - intros Hall. apply elem_of_nil_inv. intros r Hr.
    apply list_elem_of_filter in Hr as [Hk Hr]. by apply (Hall r).
Qed.

(** What [PUT /groups/:groupId] does in each case. *)
Lemma put_group_cases (req : Request) (db : DB) :
  (∃ e, put_group req db = (Failed e, db))
  ∨ (∃ u group,
       user req = Some u
       ∧ findByPk Group.id (groupId_param req) (Groups db) = Some group
       ∧ Group.organizerId group = user_id u
       ∧ validationResult (body req) group_checks = []
       ∧ put_group req db
         = (Sent 200 (JObj (object (Group.attributes
                                      (Group_set (body req) group)))),
            with_Groups (Group_save (Group_set (body req) group)
                                    (Groups db)) db)).
Proof.
  unfold put_group, route. rewrite run_app, organizer_guards.
  destruct (user req) as [u|] eqn:Hu; [|left; by eexists].
  destruct (findByPk _ _ _) as [group|] eqn:Hg; [|left; by eexists].
  destruct (bool_decide _) eqn:Ho; [|left; by eexists].
  apply bool_decide_eq_true in Ho.
  unfold validateGroup. rewrite run_validate.
  destruct (validationResult _ _) eqn:Hv; [|left; by eexists].
  right. exists u, group. repeat split; try done.
  unfold put_group_handler. by rewrite Hg.
Qed.

(** C10. Whatever the request, [PUT /groups/:groupId] leaves the six
    other tables as they are and keeps the [Groups] table row for
    row: each row keeps its [id] and its [organizerId], a row whose
    [id] is not the [:groupId] of the request is unchanged
    altogether, and a row of that id is either unchanged or differs
    from before in the six fields [name], [about], [type],
    [private], [city] and [state] only, which then hold the values
    of the body ([private] as the ORM reads it); the latter is the
    case when the answer is 200. *)
Theorem put_group_frame (req : Request) (db : DB) :
  let db' := (put_group req db).2 in
  Memberships db' = Memberships db
  ∧ GroupImages db' = GroupImages db
  ∧ Venues db' = Venues db
  ∧ Events db' = Events db
  ∧ Attendances db' = Attendances db
  ∧ EventImages db' = EventImages db
  ∧ Forall2 (λ g g',
       Group.id g' = Group.id g
       ∧ Group.organizerId g' = Group.organizerId g
       ∧ (Group.id g ≠ groupId_param req → g' = g)
       ∧ (g' = g ∨ g' = Group_set (body req) g)
       ∧ (Group.id g = groupId_param req →
          status_of (put_group req db).1 = 200 →
          g' = Group_set (body req) g))
       (Groups db) (Groups db').
Proof.
  destruct (put_group_cases req db)
    as [[e He] | (u & group & Hu & Hg & Ho & Hv & Hput)].
  - assert (status_of (put_group req db).1 ≠ 200) as Hst.
    { unfold put_group, route in *. rewrite run_app, organizer_guards in *.
      destruct (user req) as [u|]; [|done].
      destruct (findByPk _ _ _) as [group|] eqn:Hg; [|done].
      destruct (bool_decide _); [|done].
      destruct (run validateGroup _ db) as [e'|c] eqn:Hv.
      - apply validate_status in Hv. simpl. by rewrite Hv.
      - unfold put_group_handler in He. by rewrite Hg in He. }
    rewrite He in *. simpl. repeat split; try done.
    apply Forall_Forall2_diag, Forall_forall. intros g _.
    repeat split; try done. by left.
  - rewrite Hput. simpl. repeat split; try done.
    apply findByPk_Some in Hg as [Hin Hk].
    unfold Group_save. apply Forall2_fmap_r, Forall_Forall2_diag.
    apply Forall_forall. intros g Hgin. simpl.
    destruct (decide (Group.id g = Group.id group)) as [He|Hne].
    + repeat split; try done; [congruence | by right].
    + repeat split; try done; [by left | congruence].
Qed.

Lemma put_group_frame_witness :
  Forall2 (λ g g', Group.id g ≠ 1 → g' = g)
          (Groups db)
          (Groups (put_group (mk_request (Some alice) 1
                                (group_body about50)) db).2)
  ∧ Groups (put_group (mk_request (Some alice) 1 (group_body about50)) db).2
    !! 0%nat = Some (Group_set (group_body about50) walkers).
Proof.
  pose proof (put_group_frame (mk_request (Some alice) 1
                                 (group_body about50)) db) as H.
  simpl in H. destruct H as (_ & _ & _ & _ & _ & _ & H).
  split.
  - eapply Forall2_impl; [exact H|]. simpl. tauto.
  - apply Forall2_cons_inv_l in H as (g' & rest & (_ & _ & _ & _ & H) & _ & Heq).
    rewrite Heq. simpl. f_equal. apply H; vm_compute; reflexivity.
Defined.

End PutGroup.

(** ** The SQL operators *)

Section SqlFacts.

Context {A B : Type}.

Lemma elem_of_left_outer_join (on : A → B → bool) (l : list A) (r : list B)
    (a : A) (ob : option B) :
  (a, ob) ∈ left_outer_join on l r
  ↔ a ∈ l ∧ ((∃ b, ob = Some b ∧ b ∈ r ∧ on a b = true)
             ∨ (ob = None ∧ ∀ b, b ∈ r → on a b = false)).
Proof.
  unfold left_outer_join. rewrite list_elem_of_bind. split.
  - intros (a' & Hin & Ha'). split.
    + destruct (filter _ r); [apply list_elem_of_singleton in Hin|
                              apply list_elem_of_fmap in Hin as (? & Hin & _)];
        by inversion Hin; subst.
    + destruct (filter (λ b, on a' b) r) as [|b0 bs] eqn:Hf.
      * apply list_elem_of_singleton in Hin. inversion Hin; subst.
        right. split; [done|]. intros b Hb.
        destruct (on a' b) eqn:E; [|done].
        assert (b ∈ filter (λ b, on a' b) r) as Hbf
          by (apply list_elem_of_filter; by rewrite E).
        rewrite Hf in Hbf. by apply elem_of_nil in Hbf.
      * apply list_elem_of_fmap in Hin as (b & Hin & Hb).
        inversion Hin; subst. left. exists b. split; [done|].
        rewrite <- Hf in Hb. apply list_elem_of_filter in Hb as [Hon Hb].
        split; [done|]. by apply Is_true_true.
  - intros [Ha [(b & -> & Hb & Hon) | [-> Hnone]]]; exists a; (split; [|done]).
    + assert (b ∈ filter (λ b, on a b) r) as Hbf
        by (apply list_elem_of_filter; by rewrite Hon).
      destruct (filter (λ b, on a b) r) eqn:Hf;
        [by apply elem_of_nil in Hbf|].
      apply list_elem_of_fmap. by exists b.
    + destruct (filter (λ b, on a b) r) as [|b0 bs] eqn:Hf;
        [by apply list_elem_of_singleton|].
      assert (b0 ∈ filter (λ b, on a b) r) as Hbf
        by (rewrite Hf; apply list_elem_of_here).
      apply list_elem_of_filter in Hbf as [Hon Hb].
      rewrite (Hnone _ Hb) in Hon. done.
Qed.

(** A left join drops no row of its left side. *)
Lemma left_outer_join_total (on : A → B → bool) (l : list A)
    (rs : list B) (a : A) :
  a ∈ l → ∃ ob, (a, ob) ∈ left_outer_join on l rs.
Proof.
  intros Ha. destruct (filter (λ b, on a b) rs) as [|b bs] eqn:Hf.
  - exists None. apply elem_of_left_outer_join. split; [done|]. right.
    split; [done|]. intros b Hb. destruct (on a b) eqn:E; [|done].
    assert (b ∈ filter (λ b, on a b) rs) as Hin
      by (apply list_elem_of_filter; by rewrite E).
    rewrite Hf in Hin. by apply elem_of_nil in Hin.
  - exists (Some b). apply elem_of_left_outer_join. split; [done|]. left.
    assert (b ∈ filter (λ b, on a b) rs) as Hin
      by (rewrite Hf; apply list_elem_of_here).
    apply list_elem_of_filter in Hin as [Hon Hb].
    exists b. split; [done|]. split; [done|]. by apply Is_true_true.
Qed.

Lemma elem_of_group_by {K} `{EqDecision K} (key : A → K) (rows : list A)
    (k : K) (grp : list A) :
  (k, grp) ∈ group_by key rows
  ↔ k ∈ key <$> rows ∧ grp = filter (λ r, key r = k) rows.
Proof.
  unfold group_by. rewrite list_elem_of_fmap. split.
  - intros (k' & Heq & Hk'). inversion Heq; subst.
    split; [| done]. rewrite elem_of_remove_dups in Hk'. exact Hk'.
  - intros [Hk ->]. exists k. split; [done|].
    by apply elem_of_remove_dups.
Qed.

(** A group is never empty. *)
Lemma group_by_nonempty {K} `{EqDecision K} (key : A → K) (rows : list A)
    (k : K) (grp : list A) :
  (k, grp) ∈ group_by key rows →
  ∃ r rest, grp = r :: rest ∧ r ∈ rows ∧ key r = k.
Proof.
  rewrite elem_of_group_by. intros [Hk ->].
  apply list_elem_of_fmap in Hk as (r & -> & Hr).
  assert (r ∈ filter (λ r', key r' = key r) rows) as Hin
    by (by apply list_elem_of_filter).
  destruct (filter _ rows) as [|r0 rest] eqn:Hf;
    [by apply elem_of_nil in Hin|].
  exists r0, rest. split; [done|].
  assert (r0 ∈ filter (λ r', key r' = key r) rows) as Hr0
    by (rewrite Hf; apply list_elem_of_here).
  by apply list_elem_of_filter in Hr0 as [? ?].
Qed.

Lemma fold_rows_subset (pk : A → Z) (seen : list Z) (rows : list A) x :
  x ∈ fold_rows pk seen rows → x ∈ rows ∧ pk x ∉ seen.
Proof.
  revert seen. induction rows as [|r rows IH]; intros seen Hx; simpl in Hx.
  - by apply elem_of_nil in Hx.
  - destruct (decide (pk r ∈ seen)) as [Hs|Hs].
    + apply IH in Hx as [? ?]. split; [by apply list_elem_of_further | done].
    + apply elem_of_cons in Hx as [-> | Hx].
      * split; [apply list_elem_of_here | done].
      * apply IH in Hx as [? Hns]. split; [by apply list_elem_of_further|].
        intros ?. apply Hns. by apply list_elem_of_further.
Qed.

(** Every primary key of the rows is still there after folding. *)
Lemma fold_rows_keeps_keys (pk : A → Z) (seen : list Z) (rows : list A) x :
  x ∈ rows → pk x ∉ seen →
  ∃ y, y ∈ fold_rows pk seen rows ∧ pk y = pk x.
Proof.
  revert seen. induction rows as [|r rows IH]; intros seen Hx Hns.
  - by apply elem_of_nil in Hx.
  - simpl. destruct (decide (pk r ∈ seen)) as [Hs|Hs].
    + apply elem_of_cons in Hx as [-> | Hx]; [done|].
      by apply IH.
    + destruct (decide (pk r = pk x)) as [He|Hne].
      * exists r. split; [apply list_elem_of_here | done].
      * apply elem_of_cons in Hx as [-> | Hx]; [done|].
        destruct (IH (pk r :: seen) Hx) as (y & Hy & Hpk).
        { intros Hin. apply elem_of_cons in Hin as [? | ?]; congruence. }
        exists y. split; [by apply list_elem_of_further | done].
Qed.

(** At most one row per primary key after folding. *)
Lemma fold_rows_NoDup (pk : A → Z) (seen : list Z) (rows : list A) :
  NoDup (pk <$> fold_rows pk seen rows).
Proof.
  revert seen. induction rows as [|r rows IH]; intros seen; simpl.
  - constructor.
  - destruct (decide (pk r ∈ seen)); [apply IH|].
    rewrite fmap_cons. constructor; [|apply IH].
    intros Hin. apply list_elem_of_fmap in Hin as (y & Hy & Hin).
    apply fold_rows_subset in Hin as [_ Hns].
    apply Hns. rewrite <- Hy. apply list_elem_of_here.
Qed.

End SqlFacts.

(** ** The group listing *)

Section GroupListing.

Import Samples.

Implicit Types (db : DB) (r : GroupRow) (j : GroupJoin).

Lemma elem_of_groups_join db (g : Group.t) (om : option Membership.t)
    (oi : option GroupImage.t) :
  (g, om, oi) ∈ groups_join db
  ↔ g ∈ Groups db
    ∧ ((∃ m, om = Some m ∧ m ∈ Memberships db
             ∧ Membership.groupId m = Group.id g)
       ∨ (om = None ∧ ∀ m, m ∈ Memberships db →
                           Membership.groupId m ≠ Group.id g))
    ∧ ((∃ i, oi = Some i ∧ i ∈ previews_of (Group.id g) db)
       ∨ (oi = None ∧ previews_of (Group.id g) db = [])).
Proof.
  unfold groups_join. rewrite !elem_of_left_outer_join. simpl.
  unfold previews_of. split.
  - intros [[Hg Hm] Hi]. split; [done|]. split.
    + destruct Hm as [(m & -> & Hm & Hon) | [-> Hno]].
      * left. exists m. by apply bool_decide_eq_true in Hon.
      * right. split; [done|]. intros m Hm.
        specialize (Hno m Hm). by apply bool_decide_eq_false in Hno.
    + destruct Hi as [(i & -> & Hi & Hon) | [-> Hno]].
      * left. exists i. split; [done|].
        apply bool_decide_eq_true in Hon. by apply list_elem_of_filter.
      * right. split; [done|]. apply elem_of_nil_inv. intros i Hi.
        apply list_elem_of_filter in Hi as [Hp Hi].
        specialize (Hno i Hi). by apply bool_decide_eq_false in Hno.
  - intros (Hg & Hm & Hi). split; [split; [done|] |].
    + destruct Hm as [(m & -> & Hm & Hon) | [-> Hno]].
      * left. exists m. by rewrite bool_decide_eq_true.
      * right. split; [done|]. intros m Hm.
        apply bool_decide_eq_false. by apply Hno.
    + destruct Hi as [(i & -> & Hi) | [-> Hno]].
      * left. exists i. apply list_elem_of_filter in Hi as [Hp Hi].
        by rewrite bool_decide_eq_true.
      * right. split; [done|]. intros i Hi.
        apply bool_decide_eq_false. intros Hp.
        assert (i ∈ filter (λ i, GroupImage.groupId i = Group.id g
                                 ∧ GroupImage.preview i = JBool true)
                           (GroupImages db)) as Hin
          by (by apply list_elem_of_filter).
        rewrite Hno in Hin. by apply elem_of_nil in Hin.
Qed.

(** A row of the grouped query comes from a joined row: it has that
    row's group and image, and counts over the rows of its key. *)
Lemma elem_of_groups_select (rows : list GroupJoin) r :
  r ∈ groups_select rows
  ↔ ∃ j, j ∈ rows
      ∧ head (filter (λ j', (Group.id j'.1.1, image_url j'.2)
                            = (Group.id j.1.1, image_url j.2)) rows)
        = Some j
      ∧ r = {| group := j.1.1;
               numMembers :=
                 count (λ j', Membership.id <$> j'.1.2)
                   (filter (λ j', (Group.id j'.1.1, image_url j'.2)
                                  = (Group.id j.1.1, image_url j.2)) rows);
               previewImage := image_url j.2 |}.
Proof.
  unfold groups_select. rewrite list_elem_of_omap. split.
  - intros ([k grp] & Hin & Hr). simpl in Hr.
    pose proof (group_by_nonempty _ _ _ _ Hin) as (j & rest & -> & Hj & Hk).
    apply elem_of_group_by in Hin as [_ Hgrp].
    inversion Hr; subst. exists j.
    rewrite <- Hgrp. simpl. done.
  - intros (j & Hj & Hhead & ->).
    exists ((Group.id j.1.1, image_url j.2),
            filter (λ j', (Group.id j'.1.1, image_url j'.2)
                          = (Group.id j.1.1, image_url j.2)) rows).
    split.
    + apply elem_of_group_by. split; [|done].
      apply list_elem_of_fmap. by exists j.
    + simpl. destruct (filter _ rows) as [|j0 rest]; [done|].
      simpl in Hhead. by inversion Hhead; subst.
Qed.

(** The rows of the listing: every group of the table has a row;
    the group of a row is a row of the table; the [previewImage] of a
    row is the url of one of the group's preview images when it has
    one, and [null] when it has none. *)
Lemma findAll_groups_previews db :
  (∀ g, g ∈ Groups db →
        ∃ r, r ∈ findAll_groups db ∧ Group.id (group r) = Group.id g)
  ∧ (∀ r, r ∈ findAll_groups db →
       group r ∈ Groups db
       ∧ (previews_of (Group.id (group r)) db ≠ [] →
          ∃ i, i ∈ previews_of (Group.id (group r)) db
               ∧ previewImage r = GroupImage.url i)
       ∧ (previews_of (Group.id (group r)) db = [] →
          previewImage r = JNull)).
Proof.
  split.
  - intros g Hg. unfold findAll_groups.
    assert (∃ j, j ∈ groups_join db ∧ j.1.1 = g) as (j & Hj & <-).
    { destruct (filter (λ m, Membership.groupId m = Group.id g)
                       (Memberships db)) as [|m ms] eqn:Hm;
        destruct (previews_of (Group.id g) db) as [|i is'] eqn:Hi.
      - exists (g, None, None). split; [|done].
        apply elem_of_groups_join. split; [done|]. split; right.
        + split; [done|]. intros m Hin Hk.
          assert (m ∈ filter (λ m, Membership.groupId m = Group.id g)
                             (Memberships db)) as Hmf
            by (by apply list_elem_of_filter).
          rewrite Hm in Hmf. by apply elem_of_nil in Hmf.
        + done.
      - exists (g, None, Some i). split; [|done].
        apply elem_of_groups_join. split; [done|]. split; [right|left].
        + split; [done|]. intros m Hin Hk.
          assert (m ∈ filter (λ m, Membership.groupId m = Group.id g)
                             (Memberships db)) as Hmf
            by (by apply list_elem_of_filter).
          rewrite Hm in Hmf. by apply elem_of_nil in Hmf.
        + exists i. split; [done|]. rewrite Hi. apply list_elem_of_here.
      - exists (g, Some m, None). split; [|done].
        assert (m ∈ filter (λ m, Membership.groupId m = Group.id g)
                           (Memberships db)) as Hmf
          by (rewrite Hm; apply list_elem_of_here).
        apply list_elem_of_filter in Hmf as [Hk Hin].
        apply elem_of_groups_join. split; [done|]. split; [left|right].
        + by exists m.
        + done.
      - exists (g, Some m, Some i). split; [|done].
        assert (m ∈ filter (λ m, Membership.groupId m = Group.id g)
                           (Memberships db)) as Hmf
          by (rewrite Hm; apply list_elem_of_here).
        apply list_elem_of_filter in Hmf as [Hk Hin].
        apply elem_of_groups_join. split; [done|]. split; left.
        + by exists m.
        + exists i. split; [done|]. rewrite Hi. apply list_elem_of_here. }
    pose proof (group_by_nonempty
                  (λ j' : GroupJoin, (Group.id j'.1.1, image_url j'.2))
                  (groups_join db)
                  (Group.id j.1.1, image_url j.2)
                  _ (proj2 (elem_of_group_by _ _ _ _)
                       (conj (proj2 (list_elem_of_fmap _ _ _)
                                (ex_intro _ j (conj eq_refl Hj)))
                             eq_refl)))
      as (j0 & rest & Hf & Hj0 & Hk).
    assert ({| group := j0.1.1;
               numMembers :=
                 count (λ j', Membership.id <$> j'.1.2)
                   (filter (λ j', (Group.id j'.1.1, image_url j'.2)
                                  = (Group.id j0.1.1, image_url j0.2))
                           (groups_join db));
               previewImage := image_url j0.2 |}
            ∈ groups_select (groups_join db)) as Hsel.
    { apply elem_of_groups_select. exists j0. split; [done|].
      split; [|done]. simpl in Hk. rewrite Hk, Hf. done. }
    destruct (fold_rows_keeps_keys (λ r, Group.id (group r)) [] _ _ Hsel)
      as (y & Hy & Hpk); [apply not_elem_of_nil|].
    exists y. split; [done|]. simpl in Hpk. rewrite Hpk.
    by inversion Hk.
  - intros r Hr. unfold findAll_groups in Hr.
    apply fold_rows_subset in Hr as [Hr _].
    apply elem_of_groups_select in Hr as (j & Hj & _ & ->). simpl.
    destruct j as [[g om] oi]. simpl.
    apply elem_of_groups_join in Hj as (Hg & _ & Hi).
    split; [done|]. split.
    + intros Hne. destruct Hi as [(i & -> & Hi) | [_ Hnil]]; [|done].
      by exists i.
    + intros Hnil. destruct Hi as [(i & -> & Hi) | [-> _]]; [|done].
      rewrite Hnil in Hi. by apply elem_of_nil in Hi.
Qed.

(** The fields of one object of the group listing. *)
Lemma GroupRow_fields r :
  (∀ k v, (k, v) ∈ Group.attributes (group r) →
          GroupRow_object r !! k = Some (JVal v))
  ∧ GroupRow_object r !! "numMembers"
    = Some (JVal (num (Z.of_nat (numMembers r))))
  ∧ GroupRow_object r !! "previewImage" = Some (JVal (previewImage r)).
Proof.
  destruct r as [g n p]. destruct g.
  split; [|split; vm_compute; reflexivity].
  intros k v Hkv. unfold Group.attributes in Hkv. simpl in Hkv.
  rewrite !elem_of_cons, elem_of_nil in Hkv.
  destruct_or!; try done; simplify_eq; vm_compute; reflexivity.
Qed.

(** C2. [GET /groups] answers 200 with an array of objects, and
    leaves the database as it is. Every group of the table appears:
    it has an object with its [id], whose [previewImage] is the url
    of one of the group's preview images when the group has one, and
    [null] when it has none. Every object of the array is that of a
    group of the table: it carries the columns of the group, and its
    [previewImage] is as said. *)
Theorem listing_previewImage (req : Request) db :
  ∃ entries : list (gmap string json),
    get_groups req db = (Sent 200 (JArr (JObj <$> entries)), db)
    ∧ (∀ g, g ∈ Groups db →
         ∃ o, o ∈ entries
              ∧ o !! "id" = Some (JVal (num (Group.id g)))
              ∧ (previews_of (Group.id g) db ≠ [] →
                 ∃ i, i ∈ previews_of (Group.id g) db
                      ∧ o !! "previewImage" = Some (JVal (GroupImage.url i)))
              ∧ (previews_of (Group.id g) db = [] →
                 o !! "previewImage" = Some (JVal JNull)))
    ∧ (∀ o, o ∈ entries →
         ∃ g, g ∈ Groups db
              ∧ (∀ k v, (k, v) ∈ Group.attributes g →
                        o !! k = Some (JVal v))
              ∧ (previews_of (Group.id g) db ≠ [] →
                 ∃ i, i ∈ previews_of (Group.id g) db
                      ∧ o !! "previewImage" = Some (JVal (GroupImage.url i)))
              ∧ (previews_of (Group.id g) db = [] →
                 o !! "previewImage" = Some (JVal JNull))).
Proof.
  exists (GroupRow_object <$> findAll_groups db).
  destruct (findAll_groups_previews db) as [Hall Hrows].
  split; [|split].
  - unfold get_groups. by rewrite <- list_fmap_compose.
  - intros g Hg. destruct (Hall g Hg) as (r & Hr & Hid).
    destruct (Hrows r Hr) as (_ & Hsome & Hnone). rewrite Hid in Hsome, Hnone.
    destruct (GroupRow_fields r) as (Hattrs & _ & Hp).
    exists (GroupRow_object r). split; [apply list_elem_of_fmap; by exists r|].
    split; [|split].
    + rewrite <- Hid. apply Hattrs. apply list_elem_of_here.
    + intros Hne. destruct (Hsome Hne) as (i & Hi & Hurl).
      exists i. split; [done|]. by rewrite Hp, Hurl.
    + intros Hnil. by rewrite Hp, (Hnone Hnil).
  - intros o Ho. apply list_elem_of_fmap in Ho as (r & -> & Hr).
    destruct (Hrows r Hr) as (Hg & Hsome & Hnone).
    destruct (GroupRow_fields r) as (Hattrs & _ & Hp).
    exists (group r). split; [done|]. split; [done|]. split.
    + intros Hne. destruct (Hsome Hne) as (i & Hi & Hurl).
      exists i. split; [done|]. by rewrite Hp, Hurl.
    + intros Hnil. by rewrite Hp, (Hnone Hnil).
Qed.

Lemma listing_previewImage_witness :
  ∃ entries o,
    get_groups (mk_request None 0 ∅) db
    = (Sent 200 (JArr (JObj <$> entries)), db)
    ∧ o ∈ entries
    ∧ o !! "id" = Some (JVal (num 1))
    ∧ o !! "previewImage" = Some (JVal (JStr "pier.png")).
Proof.
  destruct (listing_previewImage (mk_request None 0 ∅) db)
    as (entries & Hget & Hall & _).
  destruct (Hall walkers) as (o & Ho & Hid & Hsome & _);
    [apply list_elem_of_here|].
  destruct Hsome as (i & Hi & Hurl); [vm_compute; discriminate|].
  exists entries, o. split; [exact Hget|]. split; [exact Ho|].
  split; [exact Hid|].
  apply list_elem_of_In in Hi. vm_compute in Hi.
  destruct Hi as [<- | []]. exact Hurl.
Defined.

(** C1. With the preview image of a group stored twice, the listing
    of [GET /groups] reports twice the members the group has: the
    count runs over the joined rows, and the second image repeats
    each membership. *)
Theorem listing_numMembers_repeats :
  (λ r, (Group.id (group r), numMembers r)) <$> findAll_groups db_twice
  = [(1, 4%nat); (2, 0%nat)]
  ∧ Membership_count 1 db_twice = 2%nat.
Proof. split; vm_compute; reflexivity. Qed.

(** With the image stored once the count is the number of
    memberships. *)
Example listing_numMembers_once :
  (λ r, (Group.id (group r), numMembers r)) <$> findAll_groups db
  = [(1, 2%nat); (2, 0%nat)]
  ∧ Membership_count 1 db = 2%nat.
Proof. split; vm_compute; reflexivity. Qed.

End GroupListing.

(** ** The events of a group *)

Section EventListing.

Import Samples.

Implicit Types (db : DB) (r : EventRow) (j : EventJoin).

Lemma events_join_event db j :
  j ∈ events_join db →
  ej_event j ∈ Events db
  ∧ (match ej_group j with
     | Some g => g ∈ Groups db ∧ Group.id g = Event.groupId (ej_event j)
     | None => ∀ g, g ∈ Groups db → Group.id g ≠ Event.groupId (ej_event j)
     end)
  ∧ (match ej_venue j with
     | Some v => v ∈ Venues db ∧ Venue.id v = Event.venueId (ej_event j)
     | None => ∀ v, v ∈ Venues db → Venue.id v ≠ Event.venueId (ej_event j)
     end).
Proof.
  destruct j as [[[[e oa] oi] og] ov]. unfold events_join.
  unfold ej_event, ej_group, ej_venue. simpl. intros Hj.
  apply elem_of_left_outer_join in Hj as [Hj Hv].
  apply elem_of_left_outer_join in Hj as [Hj Hg].
  apply elem_of_left_outer_join in Hj as [Hj _].
  apply elem_of_left_outer_join in Hj as [He _].
  simpl in *. split; [done|]. split.
  - destruct Hg as [(g & -> & Hg & Hon) | [-> Hno]].
    + by apply bool_decide_eq_true in Hon.
    + intros g Hg. specialize (Hno g Hg).
      by apply bool_decide_eq_false in Hno.
  - destruct Hv as [(v & -> & Hv & Hon) | [-> Hno]].
    + by apply bool_decide_eq_true in Hon.
    + intros v Hv. specialize (Hno v Hv).
      by apply bool_decide_eq_false in Hno.
Qed.

Lemma elem_of_events_select (rows : list EventJoin) r :
  r ∈ events_select rows →
  ∃ j, j ∈ rows
       ∧ event r = ej_event j
       ∧ event_Group r = ej_group j
       ∧ event_Venue r = ej_venue j
       ∧ event_previewImage r = event_image_url (ej_image j)
       ∧ numAttending r
         = count (λ j', Attendance.id <$> ej_attendance j')
                 (filter (λ j', event_key j' = event_key j) rows).
Proof.
  unfold events_select. rewrite list_elem_of_omap.
  intros ([k grp] & Hin & Hr). simpl in Hr.
  pose proof (group_by_nonempty _ _ _ _ Hin) as (j & rest & -> & Hj & Hk).
  apply elem_of_group_by in Hin as [_ Hgrp].
  inversion Hr; subst. exists j. simpl.
  repeat split; try done. by rewrite <- Hgrp.
Qed.

Lemma findAll_events_row gid db r :
  r ∈ findAll_events gid db →
  ∃ j, j ∈ events_join db
       ∧ Event.groupId (ej_event j) = gid
       ∧ event r = ej_event j
       ∧ event_Group r = ej_group j
       ∧ event_Venue r = ej_venue j.
Proof.
  unfold findAll_events. intros Hr.
  apply fold_rows_subset in Hr as [Hr _].
  apply elem_of_events_select in Hr as (j & Hj & He & Hg & Hv & _).
  apply list_elem_of_filter in Hj as [Hgid Hj].
  by exists j.
Qed.

(** The fields of one object of the listing. *)
Lemma EventRow_fields r :
  ∃ fields,
    EventRow_toJSON r = JObj fields
    ∧ fields !! "description" = None
    ∧ fields !! "capacity" = None
    ∧ fields !! "price" = None
    ∧ fields !! "createdAt" = None
    ∧ fields !! "updatedAt" = None
    ∧ fields !! "id" = Some (JVal (num (Event.id (event r))))
    ∧ fields !! "venueId" = Some (JVal (num (Event.venueId (event r))))
    ∧ fields !! "numAttending"
      = Some (JVal (num (Z.of_nat (numAttending r))))
    ∧ fields !! "previewImage" = Some (JVal (event_previewImage r))
    ∧ fields !! "Group"
      = Some (nested Group.attributes ["id"; "name"; "city"; "state"]
                     (event_Group r))
    ∧ fields !! "Venue"
      = Some (nested Venue.attributes ["id"; "city"; "state"]
                     (event_Venue r)).
Proof.
  destruct r as [e n p og ov]. eexists. split; [reflexivity|].
  repeat split; vm_compute; reflexivity.
Qed.

Lemma nested_group_fields (g : Group.t) :
  ∃ gf, nested Group.attributes ["id"; "name"; "city"; "state"] (Some g)
        = JObj gf
        ∧ dom gf = {[ "id"; "name"; "city"; "state" ]}
        ∧ gf !! "id" = Some (JVal (num (Group.id g)))
        ∧ gf !! "name" = Some (JVal (Group.name g))
        ∧ gf !! "city" = Some (JVal (Group.city g))
        ∧ gf !! "state" = Some (JVal (Group.state g)).
Proof.
  destruct g. eexists. split; [reflexivity|].
  repeat split; vm_compute; reflexivity.
Qed.

Lemma nested_venue_fields (v : Venue.t) :
  ∃ vf, nested Venue.attributes ["id"; "city"; "state"] (Some v) = JObj vf
        ∧ dom vf = {[ "id"; "city"; "state" ]}
        ∧ vf !! "id" = Some (JVal (num (Venue.id v)))
        ∧ vf !! "city" = Some (JVal (Venue.city v))
        ∧ vf !! "state" = Some (JVal (Venue.state v)).
Proof.
  destruct v. eexists. split; [reflexivity|].
  repeat split; vm_compute; reflexivity.
Qed.

Lemma get_group_events_sent (req : Request) db st (items : list json) :
  (get_group_events req db).1 = Sent st (JArr items) →
  st = 200
  ∧ items = EventRow_toJSON <$> findAll_events (groupId_param req) db
  ∧ is_Some (user req)
  ∧ ∃ g, g ∈ Groups db ∧ Group.id g = groupId_param req.
Proof.
  unfold get_group_events, route. rewrite run_cons.
  unfold requireAuth at 1. simpl.
  destruct (user req) as [u|]; [|done]. simpl.
  rewrite run_cons. unfold groupExists at 1. simpl.
  destruct (findByPk _ _ _) as [g|] eqn:Hg; [|done]. simpl.
  unfold events_handler. simpl. intros [= <- <-].
  apply findByPk_Some in Hg as [Hg Hid].
  split; [done|]. split; [done|]. split; [done|]. by exists g.
Qed.

Lemma events_select_key (rows : list EventJoin) j :
  j ∈ rows →
  ∃ r, r ∈ events_select rows
       ∧ Event.id (event r) = Event.id (ej_event j).
Proof.
  intros Hj.
  assert ((event_key j, filter (λ j', event_key j' = event_key j) rows)
          ∈ group_by event_key rows) as Hgrp.
  { apply elem_of_group_by. split; [|done].
    apply list_elem_of_fmap. by exists j. }
  pose proof (group_by_nonempty _ _ _ _ Hgrp) as (j0 & rest & Hf & Hj0 & Hk).
  eexists. split.
  - unfold events_select. apply list_elem_of_omap.
    eexists. split; [exact Hgrp|]. simpl. rewrite Hf. reflexivity.
  - simpl. unfold event_key in Hk. by simplify_eq.
Qed.

Lemma events_join_total db (e : Event.t) :
  e ∈ Events db → ∃ j, j ∈ events_join db ∧ ej_event j = e.
Proof.
  intros He. unfold events_join.
  destruct (left_outer_join_total
              (λ (e : Event.t) a,
                 bool_decide (Attendance.eventId a = Event.id e
                              ∧ Attendance.status a = "attending"))
              _ (Attendances db) e He) as [oa Ha].
  destruct (left_outer_join_total
              (λ (r : Event.t * option Attendance.t) i,
                 bool_decide (EventImage.eventId i = Event.id r.1
                              ∧ EventImage.preview i = JBool true))
              _ (EventImages db) _ Ha) as [oi Hi].
  destruct (left_outer_join_total
              (λ (r : Event.t * option Attendance.t * option EventImage.t) g,
                 bool_decide (Group.id g = Event.groupId r.1.1))
              _ (Groups db) _ Hi) as [og Hg].
  destruct (left_outer_join_total
              (λ (r : Event.t * option Attendance.t * option EventImage.t
                      * option Group.t) v,
                 bool_decide (Venue.id v = Event.venueId r.1.1.1))
              _ (Venues db) _ Hg) as [ov Hv].
  by exists (e, oa, oi, og, ov).
Qed.

(** Every event of the group has a row in the listing. *)
Lemma findAll_events_covers gid db (e : Event.t) :
  e ∈ Events db → Event.groupId e = gid →
  ∃ r, r ∈ findAll_events gid db ∧ Event.id (event r) = Event.id e.
Proof.
  intros He Hgid. destruct (events_join_total db e He) as (j & Hj & <-).
  assert (j ∈ filter (λ j, Event.groupId (ej_event j) = gid)
                     (events_join db)) as Hjf
    by (by apply list_elem_of_filter).
  destruct (events_select_key _ j Hjf) as (r & Hr & Hid).
  destruct (fold_rows_keeps_keys (λ r, Event.id (event r)) [] _ _ Hr)
    as (y & Hy & Hpk); [apply not_elem_of_nil|].
  exists y. split; [done|]. simpl in Hpk. by rewrite Hpk.
Qed.

(** C9. Every event of the group has an object in the array that
    [GET /groups/:groupId/events] returns, and every object of the
    array is that of an event of the group: it lacks the fields
    [description], [capacity] and [price], has [numAttending] and
    [previewImage], and has under [Group] an object with just [id],
    [name], [city] and [state]. Under [Venue] it has an object with
    just [id], [city] and [state] when a venue of the table has the
    [venueId] of the event, and [null] when none has. *)
Theorem event_listing_fields (req : Request) (db : DB) (st : Z)
    (items : list json) :
  (get_group_events req db).1 = Sent st (JArr items) →
  (∀ e, e ∈ Events db → Event.groupId e = groupId_param req →
        ∃ fields, JObj fields ∈ items
                  ∧ fields !! "id" = Some (JVal (num (Event.id e))))
  ∧ (∀ o, o ∈ items →
       ∃ fields gf e,
         o = JObj fields
         ∧ e ∈ Events db
         ∧ Event.groupId e = groupId_param req
         ∧ fields !! "id" = Some (JVal (num (Event.id e)))
         ∧ fields !! "description" = None
         ∧ fields !! "capacity" = None
         ∧ fields !! "price" = None
         ∧ is_Some (fields !! "numAttending")
         ∧ is_Some (fields !! "previewImage")
         ∧ fields !! "Group" = Some (JObj gf)
         ∧ dom gf = {[ "id"; "name"; "city"; "state" ]}
         ∧ ((∃ v, v ∈ Venues db ∧ Venue.id v = Event.venueId e) →
            ∃ vf, fields !! "Venue" = Some (JObj vf)
                  ∧ dom vf = {[ "id"; "city"; "state" ]})
         ∧ ((∀ v, v ∈ Venues db → Venue.id v ≠ Event.venueId e) →
            fields !! "Venue" = Some (JVal JNull))).
Proof.
  intros Hsent.
  apply get_group_events_sent in Hsent as (-> & -> & _ & g0 & Hg0 & Hid).
  split.
  - intros e He Hgid.
    destruct (findAll_events_covers _ db e He Hgid) as (r & Hr & Hrid).
    destruct (EventRow_fields r)
      as (fields & Hf & _ & _ & _ & _ & _ & Hi & _).
    exists fields. split.
    + rewrite <- Hf. apply list_elem_of_fmap. by exists r.
    + by rewrite Hi, Hrid.
  - intros o Ho. apply list_elem_of_fmap in Ho as (r & -> & Hr).
    apply findAll_events_row in Hr as (j & Hj & Hgid & He & Hg & Hv).
    apply events_join_event in Hj as (Hev & Hjg & Hjv).
    destruct (EventRow_fields r)
      as (fields & -> & Hd & Hc & Hp & _ & _ & Hi & _ & Hn & Him & HG & HV).
    destruct (ej_group j) as [g|] eqn:Egr.
    2:{ exfalso. apply (Hjg g0 Hg0). congruence. }
    rewrite Hg in HG.
    destruct (nested_group_fields g) as (gf & Hgf & Hdomg & _).
    rewrite Hgf in HG.
    exists fields, gf, (ej_event j). rewrite <- He.
    rewrite <- He in Hev, Hgid, Hjv.
    repeat split; try done; try (by eexists).
    + intros (v & Hvin & Hvid). rewrite Hv in HV.
      destruct (ej_venue j) as [v'|].
      * destruct (nested_venue_fields v') as (vf & Hvf & Hdomv & _).
        rewrite Hvf in HV. by exists vf.
      * exfalso. by apply (Hjv v Hvin).
    + intros Hnone. rewrite Hv in HV.
      destruct (ej_venue j) as [v'|]; [|done].
      exfalso. destruct Hjv as [Hvin Hvid]. by apply (Hnone v' Hvin).
Qed.

Lemma event_listing_fields_witness :
  ∃ fields vf,
    JObj fields ∈ EventRow_toJSON <$> findAll_events 1 db
    ∧ fields !! "id" = Some (JVal (num 5))
    ∧ fields !! "description" = None
    ∧ fields !! "Venue" = Some (JObj vf)
    ∧ dom vf = {[ "id"; "city"; "state" ]}.
Proof.
  destruct (event_listing_fields (mk_request (Some bob) 1 ∅) db 200
              (EventRow_toJSON <$> findAll_events 1 db))
    as [Hcov Hall]; [vm_compute; reflexivity|].
  destruct (Hcov walk) as (fields0 & Hin & Hid0);
    [apply list_elem_of_here | reflexivity |].
  destruct (Hall _ Hin)
    as (fields & gf & e & Heq & He & _ & Hid & Hd & _ & _ & _ & _ & _ & _
        & Hsome & _).
  injection Heq as <-.
  apply list_elem_of_singleton in He as ->.
  destruct Hsome as (vf & HV & Hdom).
  { exists pier. split; [apply list_elem_of_here | reflexivity]. }
  exists fields0, vf. split; [exact Hin|]. split; [exact Hid0|].
  split; [exact Hd|]. split; [exact HV | exact Hdom].
Defined.

(** For an event whose venue is not in the table the object has
    [null] under [Venue]: the claim that every object carries a
    venue summary fails on it. *)
Theorem event_listing_venue_null :
  ∃ fields,
    (get_group_events (mk_request (Some bob) 1 ∅) db_no_venue).1
    = Sent 200 (JArr [JObj fields])
    ∧ fields !! "id" = Some (JVal (num 5))
    ∧ fields !! "Venue" = Some (JVal JNull).
Proof.
  eexists. split; [vm_compute; reflexivity|].
  split; vm_compute; reflexivity.
Qed.

(** C3. With the preview image of an event stored twice, the event
    listing reports twice the attendances of status attending that
    the event has: the count runs over the joined rows, and the
    second image repeats each attendance. *)
Theorem event_listing_numAttending_repeats :
  (λ r, (Event.id (event r), numAttending r))
    <$> findAll_events 1 db_event_twice
  = [(5, 2%nat)]
  ∧ length (attending_of 5 db_event_twice) = 1%nat.
Proof. split; vm_compute; reflexivity. Qed.

(** With the image stored once, the pending attendance is left out
    and the one of status attending is counted. *)
Example event_listing_numAttending_once :
  (λ r, (Event.id (event r), numAttending r)) <$> findAll_events 1 db
  = [(5, 1%nat)]
  ∧ length (attending_of 5 db) = 1%nat
  ∧ length (Attendances db) = 2%nat.
Proof. repeat split; vm_compute; reflexivity. Qed.

End EventListing.

(** ** Past and upcoming events *)

Section TimeEvents.

Import Frontend.

Variable Date_parse : string → option Z.

#[local] Abbreviation sorter := (sorter Date_parse).
#[local] Abbreviation parsed :=
  (λ e : event, is_Some (Date_parse (startDate e))).

Lemma date_gt_starts_before now e :
  date_gt now (Date_parse (startDate e)) = true ↔ starts_before Date_parse now e.
Proof.
  unfold date_gt, starts_before. destruct (Date_parse _); [|done].
  apply bool_decide_eq_true.
Qed.

(** With a clock that stands still the loop is a partition. *)
Lemma partition_events_fixed now (events pastEvents upcomingEvents : list event) i :
  partition_events Date_parse (λ _, now) i events pastEvents upcomingEvents
  = (pastEvents ++ filter (starts_before Date_parse now) events,
     upcomingEvents ++ filter (λ e, ¬ starts_before Date_parse now e) events).
Proof.
  revert i pastEvents upcomingEvents.
  induction events as [|e events IH]; intros i pastEvents upcomingEvents.
  - simpl. by rewrite !app_nil_r.
  - simpl. destruct (date_gt now _) eqn:Hgt.
    + apply date_gt_starts_before in Hgt.
      rewrite IH, filter_cons_True, filter_cons_False by tauto.
      by rewrite <- app_assoc.
    + assert (¬ starts_before Date_parse now e) as Hn.
      { intros Hs. apply date_gt_starts_before in Hs. congruence. }
      rewrite IH, filter_cons_False, filter_cons_True by done.
      by rewrite <- app_assoc.
Qed.

Lemma sort_insert_Permutation cmp x (l : list event) :
  sort_insert cmp x l ≡ₚ x :: l.
Proof.
  induction l as [|y l IH]; [done|]. simpl.
  destruct (stays_before cmp x y); [done|].
  rewrite IH. apply Permutation_swap.
Qed.

(** Sorting keeps the elements. *)
Lemma Array_sort_Permutation cmp (l : list event) : Array_sort cmp l ≡ₚ l.
Proof.
  induction l as [|x l IH]; [done|]. unfold Array_sort in *. simpl.
  by rewrite sort_insert_Permutation, IH.
Qed.




End TimeEvents.

Section TimeEventsSamples.

Import Frontend Samples.

(** The two dates of the spec's example, on either side of [now]. *)
Example getTimeEvents_2020_2099 :
  getTimeEvents parse_date_only (λ _, now)
    [page_event 1 "2099-01-01"; page_event 2 "2020-01-01"]
  = ([page_event 2 "2020-01-01"], [page_event 1 "2099-01-01"]).
Proof. vm_compute. reflexivity. Qed.



End TimeEventsSamples.

(** ** Counting over joined rows *)

Section SqlCounting.

Context {A B : Type}.

Lemma filter_bind {C} (P : C → Prop) `{∀ x, Decision (P x)}
    (f : A → list C) (l : list A) :
  filter P (l ≫= f) = l ≫= (λ a, filter P (f a)).
Proof.
  induction l as [|a l IH]; [done|].
  by rewrite !bind_cons, filter_app, IH.
Qed.

Lemma filter_pair_fst (Q : A → Prop) `{∀ a, Decision (Q a)} (a : A)
    (o : list (option B)) :
  filter (λ p : A * option B, Q p.1) (pair a <$> o)
  = if decide (Q a) then pair a <$> o else [].
Proof.
  induction o as [|b o IH]; [by destruct (decide (Q a))|].
  rewrite fmap_cons. destruct (decide (Q a)) as [HQ|HQ].
  - rewrite filter_cons_True by done. by rewrite IH.
  - rewrite filter_cons_False by done. by rewrite IH.
Qed.

Lemma left_outer_join_matches (on : A → B → bool) (l : list A) (r : list B) :
  left_outer_join on l r = l ≫= (λ a, pair a <$> matches on a r).
Proof.
  unfold left_outer_join, matches. induction l as [|a l IH]; [done|].
  rewrite !bind_cons, IH. f_equal.
  destruct (filter (λ b, on a b) r) as [|b bs]; [done|].
  by rewrite <- list_fmap_compose.
Qed.

(** A condition on the left row can be applied before the join. *)
Lemma filter_left_outer_join (on : A → B → bool) (Q : A → Prop)
    `{∀ a, Decision (Q a)} (l : list A) (r : list B) :
  filter (λ p, Q p.1) (left_outer_join on l r)
  = left_outer_join on (filter Q l) r.
Proof.
  rewrite !left_outer_join_matches. induction l as [|a l IH]; [done|].
  rewrite bind_cons, filter_app, IH, filter_pair_fst.
  destruct (decide (Q a)) as [HQ|HQ].
  - by rewrite filter_cons_True, bind_cons by done.
  - by rewrite filter_cons_False by done.
Qed.

(** The rows of a join in which every left row has the same matches
    form a product, and conditions on the two sides count apart. *)
Lemma length_filter_product (Q1 : A → Prop) (Q2 : option B → Prop)
    `{∀ a, Decision (Q1 a)} `{∀ b, Decision (Q2 b)}
    (l : list A) (o : list (option B)) :
  length (filter (λ p, Q1 p.1 ∧ Q2 p.2) (l ≫= (λ a, pair a <$> o)))
  = (length (filter Q1 l) * length (filter Q2 o))%nat.
Proof.
  induction l as [|a l IH]; [done|].
  rewrite bind_cons, filter_app, length_app, IH.
  assert (length (filter (λ p : A * option B, Q1 p.1 ∧ Q2 p.2) (pair a <$> o))
          = if decide (Q1 a) then length (filter Q2 o) else 0%nat) as ->.
  { clear IH. induction o as [|b o IHo]; [by destruct (decide (Q1 a))|].
    rewrite fmap_cons. destruct (decide (Q1 a)) as [HQ|HQ].
    - destruct (decide (Q2 b)) as [Hb|Hb].
      + rewrite !filter_cons_True by done. simpl. by rewrite IHo.
      + rewrite !filter_cons_False by (simpl; tauto). by rewrite IHo.
    - rewrite filter_cons_False by (simpl; tauto). by rewrite IHo. }
  destruct (decide (Q1 a)) as [HQ|HQ].
  - rewrite filter_cons_True by done. simpl. lia.
  - rewrite filter_cons_False by done. lia.
Qed.

Lemma left_outer_join_constant (on : A → B → bool) (l : list A) (r : list B)
    (o : list (option B)) :
  (∀ a, a ∈ l → matches on a r = o) →
  left_outer_join on l r = l ≫= (λ a, pair a <$> o).
Proof.
  intros Hl. rewrite left_outer_join_matches.
  induction l as [|a l IH]; [done|].
  rewrite !bind_cons, (Hl a) by apply list_elem_of_here.
  rewrite IH; [done|]. intros a' Ha'. apply Hl. by apply list_elem_of_further.
Qed.

(** The rows of a key that occurs once are that row. *)
Lemma filter_unique_key (pk : A → Z) (l : list A) (a : A) :
  NoDup (pk <$> l) → a ∈ l → filter (λ x, pk x = pk a) l = [a].
Proof.
  induction l as [|x l IH]; intros Hnd Ha; [by apply elem_of_nil in Ha|].
  rewrite fmap_cons in Hnd. apply NoDup_cons in Hnd as [Hx Hnd].
  apply elem_of_cons in Ha as [<- | Ha].
  - rewrite filter_cons_True by done. f_equal.
    apply elem_of_nil_inv. intros y Hy.
    apply list_elem_of_filter in Hy as [Hk Hy].
    apply Hx. rewrite <- Hk. apply list_elem_of_fmap. by exists y.
  - rewrite filter_cons_False; [by apply IH|].
    intros Hk. apply Hx. rewrite Hk. apply list_elem_of_fmap. by exists a.
Qed.

Lemma length_filter_unique {C} `{EqDecision C} (f : A → C) (l : list A) (a : A) :
  NoDup (f <$> l) → a ∈ l → length (filter (λ x, f x = f a) l) = 1%nat.
Proof.
  induction l as [|x l IH]; intros Hnd Ha; [by apply elem_of_nil in Ha|].
  rewrite fmap_cons in Hnd. apply NoDup_cons in Hnd as [Hx Hnd].
  apply elem_of_cons in Ha as [<- | Ha].
  - rewrite filter_cons_True by done. simpl. f_equal.
    apply length_zero_iff_nil, elem_of_nil_inv. intros y Hy.
    apply list_elem_of_filter in Hy as [Hk Hy].
    apply Hx. rewrite <- Hk. apply list_elem_of_fmap. by exists y.
  - rewrite filter_cons_False; [by apply IH|].
    intros Hk. apply Hx. rewrite Hk. apply list_elem_of_fmap. by exists a.
Qed.

End SqlCounting.

(** ** Member counts of the group listings *)

Section GroupCounting.

Implicit Types (db : DB) (g : Group.t) (r : GroupRow) (j : GroupJoin).

#[local] Abbreviation on_member :=
  (λ (g : Group.t) (m : Membership.t),
     bool_decide (Membership.groupId m = Group.id g)).

#[local] Abbreviation on_image :=
  (λ (p : Group.t * option Membership.t) (i : GroupImage.t),
     bool_decide (GroupImage.groupId i = Group.id p.1
                  ∧ GroupImage.preview i = JBool true)).

(** The joined rows of one group are the product of its memberships
    (or one [NULL]) and its preview images (or one [NULL]). *)
Lemma groups_join_of_group db g :
  NoDup (Group.id <$> Groups db) → g ∈ Groups db →
  filter (λ j, Group.id j.1.1 = Group.id g) (groups_join db)
  = (pair g <$> matches on_member g (Memberships db))
      ≫= (λ a, pair a <$> matches on_image (g, None) (GroupImages db)).
Proof.
  intros Hnd Hg. unfold groups_join.
  etrans.
  { exact (filter_left_outer_join on_image
             (λ p : Group.t * option Membership.t,
                Group.id p.1 = Group.id g)
             (left_outer_join on_member (Groups db) (Memberships db))
             (GroupImages db)). }
  etrans.
  { apply (f_equal (λ l, left_outer_join on_image l (GroupImages db))).
    etrans.
    { exact (filter_left_outer_join on_member
               (λ g', Group.id g' = Group.id g)
               (Groups db) (Memberships db)). }
    rewrite (filter_unique_key Group.id _ g Hnd Hg).
    rewrite (left_outer_join_matches on_member [g]).
    apply bind_singleton. }
  apply left_outer_join_constant.
  intros [g' om] Ha. apply list_elem_of_fmap in Ha as (om' & [= -> ->] & _).
  reflexivity.
Qed.

Lemma matches_members_count g (ms : list Membership.t)
    (P : Group.t * option Membership.t → Prop) `{∀ a, Decision (P a)} :
  length (filter (λ a : Group.t * option Membership.t,
                    is_Some (Membership.id <$> a.2) ∧ P a)
                 (pair g <$> matches on_member g ms))
  = length (filter (λ m, Membership.groupId m = Group.id g ∧ P (g, Some m)) ms).
Proof.
  transitivity (length (filter (λ m, P (g, Some m))
                               (filter (λ m, on_member g m) ms))).
  2:{ rewrite list_filter_filter. f_equal. apply list_filter_iff.
      intros m. rewrite bool_decide_spec. tauto. }
  unfold matches.
  destruct (filter (λ m : Membership.t,
                      bool_decide (Membership.groupId m = Group.id g)) ms)
    as [|m0 l].
  - rewrite fmap_cons, filter_cons_False; [done|].
    simpl. intros [[? [=]] _].
  - generalize (m0 :: l). clear. intros l.
    induction l as [|m l IH]; [done|]. rewrite !fmap_cons.
    destruct (decide (P (g, Some m))) as [HP|HP].
    + rewrite !filter_cons_True; [simpl; by rewrite IH | done |].
      simpl. split; [by eexists | done].
    + rewrite !filter_cons_False; [done | done |]. simpl. tauto.
Qed.

(** A listed url occurs once among the matches when the preview images
    of the group have different urls. *)
Lemma matches_image_count db g (oi : option GroupImage.t) :
  NoDup (GroupImage.url <$> previews_of (Group.id g) db) →
  oi ∈ matches on_image (g, None) (GroupImages db) →
  length (filter (λ oi', image_url oi' = image_url oi)
                 (matches on_image (g, None) (GroupImages db))) = 1%nat.
Proof.
  unfold matches, previews_of.
  rewrite (list_filter_iff (λ i, on_image (g, None) i)
             (λ i, GroupImage.groupId i = Group.id g
                   ∧ GroupImage.preview i = JBool true))
    by (intros i; apply bool_decide_spec).
  intros Hnd Hoi.
  destruct (filter _ (GroupImages db)) as [|i0 l].
  - apply list_elem_of_singleton in Hoi as ->. done.
  - revert Hnd Hoi. generalize (i0 :: l). clear. intros l Hnd Hoi.
    apply list_elem_of_fmap in Hoi as (i & -> & Hi). simpl.
    rewrite <- (length_filter_unique GroupImage.url l i Hnd Hi).
    clear. induction l as [|x l IH]; [done|]. rewrite fmap_cons.
    destruct (decide (GroupImage.url x = GroupImage.url i)) as [He|He].
    + rewrite !filter_cons_True by done. simpl. by rewrite IH.
    + rewrite !filter_cons_False by done. done.
Qed.

(** The aggregate of the grouped query over rows kept by a condition
    on the group and its membership. *)
Lemma groups_select_count db (P : Group.t * option Membership.t → Prop)
    `{∀ a, Decision (P a)} r :
  NoDup (Group.id <$> Groups db) →
  (∀ g, g ∈ Groups db →
        NoDup (GroupImage.url <$> previews_of (Group.id g) db)) →
  r ∈ groups_select (filter (λ j, P j.1) (groups_join db)) →
  group r ∈ Groups db
  ∧ numMembers r
    = length (filter (λ m, Membership.groupId m = Group.id (group r)
                           ∧ P (group r, Some m))
                     (Memberships db)).
Proof.
  intros Hnd Hurl Hr.
  apply elem_of_groups_select in Hr as (j & Hj & _ & ->). simpl.
  apply list_elem_of_filter in Hj as [HPj Hj].
  destruct j as [[g om] oi]. simpl in *.
  pose proof Hj as Hjoin. apply elem_of_groups_join in Hj as (Hg & _ & _).
  split; [done|]. unfold count.
  transitivity
    (length (filter (λ p : GroupJoin,
                       (is_Some (Membership.id <$> p.1.2) ∧ P p.1)
                       ∧ image_url p.2 = image_url oi)
                    (filter (λ j', Group.id j'.1.1 = Group.id g)
                            (groups_join db)))).
  { rewrite !list_filter_filter. f_equal. apply list_filter_iff.
    intros [[g' om'] oi']. simpl. split.
    - intros Hx. destruct_and!. simplify_eq. done.
    - intros Hx. destruct_and!. repeat split; try done. congruence. }
  rewrite (groups_join_of_group db g Hnd Hg).
  etrans.
  { exact (length_filter_product
             (λ a : Group.t * option Membership.t,
                is_Some (Membership.id <$> a.2) ∧ P a)
             (λ oi', image_url oi' = image_url oi)
             (pair g <$> matches on_member g (Memberships db))
             (matches on_image (g, None) (GroupImages db))). }
  rewrite matches_members_count, (matches_image_count db g oi); [lia| |].
  - by apply Hurl.
  - assert ((g, om, oi) ∈ filter (λ j, Group.id j.1.1 = Group.id g)
                                  (groups_join db)) as Hin
      by (by apply list_elem_of_filter).
    rewrite (groups_join_of_group db g Hnd Hg) in Hin.
    apply list_elem_of_bind in Hin as (a & Hin & _).
    apply list_elem_of_fmap in Hin as (oi' & [= _ ->] & Hoi). done.
Qed.

End GroupCounting.

(** ** The member counts that the two listings return *)

Section MemberCounts.

Import Samples.

Implicit Types (db : DB) (r : GroupRow).

Lemma filter_all {A} (l : list A) : filter (λ _ : A, True) l = l.
Proof.
  induction l as [|x l IH]; [done|]. by rewrite filter_cons_True, IH.
Qed.

(** X11. Where group ids are unique and no two preview images of a
    group share a url, the listing of [GET /groups] reports for each
    group the number of its memberships, of whatever status. *)
Lemma listing_numMembers db r :
  NoDup (Group.id <$> Groups db) →
  (∀ g, g ∈ Groups db →
        NoDup (GroupImage.url <$> previews_of (Group.id g) db)) →
  r ∈ findAll_groups db →
  numMembers r = Membership_count (Group.id (group r)) db.
Proof.
  intros Hnd Hurl Hr. unfold findAll_groups in Hr.
  apply fold_rows_subset in Hr as [Hr _].
  rewrite <- (filter_all (groups_join db)) in Hr.
  destruct (groups_select_count db (λ _, True) r Hnd Hurl Hr) as [_ ->].
  unfold Membership_count. f_equal. apply list_filter_iff. tauto.
Qed.

Lemma findAll_current_row uid db r :
  r ∈ findAll_current uid db →
  r ∈ groups_select
        (filter (λ j : GroupJoin,
                   (λ p : Group.t * option Membership.t,
                      Group.organizerId p.1 = uid
                      ∨ Membership.userId <$> p.2 = Some uid) j.1)
                (groups_join db)).
Proof.
  unfold findAll_current. intros Hr.
  apply fold_rows_subset in Hr as [Hr _].
  unfold order_by in Hr. rewrite merge_sort_Permutation in Hr.
  erewrite list_filter_iff; [exact Hr|]. intros j. done.
Qed.

(** C5, as the code has it. In [GET /groups/current] the [numMembers]
    of every returned group is the number of all memberships of the
    group, which the second query supplies. Where group ids are unique
    and no two preview images of a group share a url, the aggregate of
    the first query agrees with it for the groups the requester
    organizes; for a group the requester does not organize the
    aggregate counts the requester's own memberships in the group
    only. *)
Theorem current_numMembers (uid : Z) db :
  (∀ r, r ∈ current_groups uid db →
        numMembers r = Membership_count (Group.id (group r)) db)
  ∧ (NoDup (Group.id <$> Groups db) →
     (∀ g, g ∈ Groups db →
           NoDup (GroupImage.url <$> previews_of (Group.id g) db)) →
     ∀ r, r ∈ findAll_current uid db →
       (Group.organizerId (group r) = uid →
        numMembers r = Membership_count (Group.id (group r)) db)
       ∧ (Group.organizerId (group r) ≠ uid →
          numMembers r
          = length (filter (λ m, Membership.groupId m = Group.id (group r)
                                 ∧ Membership.userId m = uid)
                           (Memberships db)))).
Proof.
  split.
  - intros r Hr. unfold current_groups in Hr.
    apply list_elem_of_fmap in Hr as (r' & -> & _). done.
  - intros Hnd Hurl r Hr. apply findAll_current_row in Hr.
    destruct (groups_select_count db
                (λ p : Group.t * option Membership.t,
                   Group.organizerId p.1 = uid
                   ∨ Membership.userId <$> p.2 = Some uid)
                r Hnd Hurl Hr) as [_ ->].
    split; intros Ho.
    + unfold Membership_count. f_equal. apply list_filter_iff.
      intros m. simpl. tauto.
    + f_equal. apply list_filter_iff. intros m. simpl. split.
      * intros [Hk [? | [= ?]]]; done.
      * intros [Hk Hu]. split; [done|]. right. by rewrite Hu.
Qed.

Lemma current_numMembers_witness :
  numMembers {| group := walkers; numMembers := 2;
                previewImage := JStr "pier.png" |}
  = Membership_count 1 db.
Proof.
  destruct (current_numMembers 10 db) as [_ H].
  apply H.
  - by_computation.
  - intros g Hg. apply list_elem_of_In in Hg.
    destruct Hg as [<- | [<- | []]]; by_computation.
  - apply list_elem_of_In. vm_compute. tauto.
  - reflexivity.
Defined.

(** For bob, a member of alice's group (group 1) and the organizer of
    group 2, the first query counts his own membership in group 1 and
    the second query both memberships of that group. *)
Lemma current_second_query_matters :
  (λ r, (Group.id (group r), numMembers r)) <$> findAll_current 20 db
  = [(1, 1%nat); (2, 0%nat)]
  ∧ (λ r, (Group.id (group r), numMembers r)) <$> current_groups 20 db
    = [(1, 2%nat); (2, 0%nat)].
Proof. split; vm_compute; reflexivity. Qed.

End MemberCounts.

(** ** What the validator chains accept *)

Section Accepting.

Implicit Types (b : gmap string jsval).

Lemma if_nil_iff {A} (t : bool) (x : A) :
  (if t then [] else [x]) = [] ↔ t = true.
Proof. by destruct t. Qed.

Lemma app_nil_iff {A} (l1 l2 : list A) : l1 ++ l2 = [] ↔ l1 = [] ∧ l2 = [].
Proof.
  split; [by apply app_eq_nil | intros [-> ->]; done].
Qed.





Lemma venue_checks_reports b :
  validationResult b venue_checks
  = (if present true (field b "address") then []
     else [("address", "Street address is required")])
    ++ (if present true (field b "city") then []
        else [("city", "City is required")])
    ++ (if present true (field b "state") then []
        else [("state", "State is required")])
    ++ ((if present true (field b "lat") then []
         else [("lat", "Invalid value")])
        ++ (if float_between (-89) 91 (field b "lat") then []
            else [("lat", "Latitude is not valid")]))
    ++ ((if present true (field b "lng") then []
         else [("lng", "Invalid value")])
        ++ (if float_between (-179) 181 (field b "lng") then []
            else [("lng", "Longitude is not valid")]))
    ++ [].
Proof.
  unfold validationResult, venue_checks.
  rewrite !bind_cons. change ([] ≫= run_chain b) with (@nil (string * string)).
  unfold exists_, isFloat.
  by rewrite !run_chain_2, !run_chain_1.
Qed.

(** X2. For a body whose [lat] and [lng] are numbers, the chains of
    [validateVenue] report nothing exactly when [address], [city] and
    [state] are truthy, [lat] lies strictly between -89 and 91 and is
    not 0, and [lng] lies strictly between -179 and 181 and is not
    0. *)
Theorem validateVenue_accepts_numbers b (x y : Qc) :
  field b "lat" = JNum x →
  field b "lng" = JNum y →
  validationResult b venue_checks = []
  ↔ truthy (field b "address") = true
    ∧ truthy (field b "city") = true
    ∧ truthy (field b "state") = true
    ∧ (x ≠ Q2Qc 0
       ∧ (Q2Qc (inject_Z (-89)) < x)%Qc ∧ (x < Q2Qc (inject_Z 91))%Qc)
    ∧ (y ≠ Q2Qc 0
       ∧ (Q2Qc (inject_Z (-179)) < y)%Qc ∧ (y < Q2Qc (inject_Z 181))%Qc).
Proof.
  intros Hlat Hlng.
  rewrite venue_checks_reports, !app_nil_iff, !if_nil_iff, Hlat, Hlng.
  rewrite <- (lat_number x), <- (lng_number y), !andb_true_iff.
  unfold present at 1 2 3. tauto.
Qed.

Lemma validateVenue_accepts_numbers_witness :
  validationResult (Samples.venue_body (num 51) (num (-1))) venue_checks = [].
Proof.
  apply (validateVenue_accepts_numbers _ (Q2Qc (inject_Z 51))
           (Q2Qc (inject_Z (-1)))); [reflexivity | reflexivity |].
  repeat split; try (vm_compute; (reflexivity || discriminate)).
Defined.

End Accepting.

(** ** A request that fails leaves the database alone *)

Section Frames.

Implicit Types (req : Request) (db : DB).

Lemma route_failed (mws : list middleware) (h : handler) req db e :
  (∀ e', (h req db).1 = Failed e' → (h req db).2 = db) →
  (route mws h req db).1 = Failed e →
  (route mws h req db).2 = db.
Proof.
  unfold route. intros Hh. destruct (run mws _ db) as [e'|c]; [done|].
  apply Hh.
Qed.

(** X3. A request that ends in an error writes nothing: on every
    route, when the response is an error the database is the one
    before. *)
Theorem failed_request_writes_nothing (R : handler) req db e :
  R ∈ all_routes →
  (R req db).1 = Failed e →
  (R req db).2 = db.
Proof.
  intros HR. unfold all_routes in HR.
  rewrite !elem_of_cons, elem_of_nil in HR.
  destruct_or!; subst R; try done; apply route_failed; intros e';
    unfold current_handler, post_group_handler, put_group_handler,
      delete_group_handler;
    try (by destruct (user req)); try (by destruct (findByPk _ _ _)); done.
Qed.

Lemma failed_request_writes_nothing_witness :
  (put_group (Samples.mk_request (Some Samples.alice) 1
                (Samples.group_body Samples.about49)) Samples.db).2
  = Samples.db.
Proof.
  apply (failed_request_writes_nothing put_group _ _
           (http_error 400
              {[ "about" := "About must be 50 characters or more" ]})).
  - unfold all_routes. set_solver.
  - vm_compute. reflexivity.
Defined.

End Frames.

(** ** Reading back what was written *)

Section ReadBack.

Implicit Types (req : Request) (db : DB).

Lemma findByPk_fmap {A} (pk : A → Z) (f : A → A) k (rows : list A) :
  (∀ a, pk (f a) = pk a) →
  findByPk pk k (f <$> rows) = f <$> findByPk pk k rows.
Proof.
  intros Hpk. unfold findByPk. induction rows as [|a rows IH]; [done|].
  rewrite fmap_cons. destruct (decide (pk a = k)) as [He|He].
  - rewrite !filter_cons_True; [done | done | by rewrite Hpk].
  - rewrite !filter_cons_False; [done | done | by rewrite Hpk].
Qed.

(** X5. After a [PUT /groups/:groupId] answered with success, for a
    body whose [name], [about], [city] and [state] are texts and
    whose [private] the ORM reads as a boolean: looking the group up
    by that id finds a row with the [id] and the [organizerId] of the
    row the request found, with the five texts of the body, and with
    [private] as the boolean that the body's value stands for; and
    the response carries the attributes of that row. *)
Theorem put_group_read_back req db st payload :
  (put_group req db).1 = Sent st payload →
  Forall (λ k, is_text (field (body req) k))
         ["name"; "about"; "city"; "state"] →
  is_flag (field (body req) "private") →
  ∃ g g',
    findByPk Group.id (groupId_param req) (Groups db) = Some g
    ∧ findByPk Group.id (groupId_param req) (Groups (put_group req db).2)
      = Some g'
    ∧ Group.id g' = Group.id g
    ∧ Group.organizerId g' = Group.organizerId g
    ∧ Group.name g' = field (body req) "name"
    ∧ Group.about g' = field (body req) "about"
    ∧ Group.type g' = field (body req) "type"
    ∧ Group.private g' = BOOLEAN_sanitize (field (body req) "private")
    ∧ Group.city g' = field (body req) "city"
    ∧ Group.state g' = field (body req) "state"
    ∧ st = 200
    ∧ payload = JObj (object (Group.attributes g')).
Proof.
  intros Hsent _ _.
  destruct (put_group_cases req db)
    as [[e He] | (u & g & Hu & Hg & Ho & Hv & Hput)].
  { by rewrite He in Hsent. }
  rewrite Hput in Hsent |- *. simpl in *. injection Hsent as <- <-.
  exists g, (Group_set (body req) g). split; [done|].
  split; [|repeat split; done].
  unfold Group_save. rewrite findByPk_fmap.
  - rewrite Hg. simpl. apply findByPk_Some in Hg as [_ Hk].
    rewrite decide_True by done. done.
  - intros a. by destruct (decide _).
Qed.

Lemma put_group_read_back_witness :
  ∃ g', findByPk Group.id 1
          (Groups (put_group (Samples.mk_request (Some Samples.alice) 1
                                Samples.changed_body) Samples.db).2)
        = Some g'
        ∧ Group.organizerId g' = 10
        ∧ Group.name g' = JStr "Night walkers"
        ∧ Group.private g' = JBool true
        ∧ Group.city g' = JStr "Hove".
Proof.
  destruct (put_group_read_back
              (Samples.mk_request (Some Samples.alice) 1 Samples.changed_body)
              Samples.db 200
              (JObj (object (Group.attributes
                               (Group_set Samples.changed_body
                                          Samples.walkers)))))
    as (g & g' & Hg & Hg' & _ & Ho & Hn & _ & _ & Hp & Hc & _).
  - vm_compute. reflexivity.
  - repeat constructor; eexists; vm_compute; reflexivity.
  - exists true. vm_compute. reflexivity.
  - exists g'. split; [exact Hg'|].
    assert (Some g = Some Samples.walkers) as [= ->]
      by (rewrite <- Hg; vm_compute; reflexivity).
    repeat split; [by rewrite Ho | by rewrite Hn | by rewrite Hp
                   | by rewrite Hc].
Defined.

Lemma delete_group_cases req db :
  (∃ e, delete_group req db = (Failed e, db))
  ∨ (∃ g, findByPk Group.id (groupId_param req) (Groups db) = Some g
          ∧ delete_group req db
            = (Sent 200 (JObj {[ "message"
                                   := JVal (JStr "Successfully deleted") ]}),
               Group_destroy (Group.id g) db)).
Proof.
  unfold delete_group, route. rewrite organizer_guards.
  destruct (user req) as [u|]; [|left; by eexists].
  destruct (findByPk _ _ _) as [g|] eqn:Hg; [|left; by eexists].
  destruct (bool_decide _); [|left; by eexists].
  right. exists g. split; [done|].
  unfold delete_group_handler. by rewrite Hg.
Qed.

(** X6. After a [DELETE /groups/:groupId] answered with success no
    group has that id any more, and the groups of another id are the
    ones before, in their order. *)
Theorem delete_group_then_lookup req db st payload :
  (delete_group req db).1 = Sent st payload →
  findByPk Group.id (groupId_param req) (Groups (delete_group req db).2)
  = None
  ∧ Groups (delete_group req db).2
    = filter (λ g, Group.id g ≠ groupId_param req) (Groups db).
Proof.
  intros Hsent.
  destruct (delete_group_cases req db) as [[e He] | (g & Hg & Hdel)].
  { by rewrite He in Hsent. }
  rewrite Hdel. simpl. apply findByPk_Some in Hg as [_ Hk]. rewrite Hk.
  split; [|done]. apply findByPk_None. intros g' Hg'.
  by apply list_elem_of_filter in Hg' as [? _].
Qed.

Lemma delete_group_then_lookup_witness :
  findByPk Group.id 1
    (Groups (delete_group (Samples.mk_request (Some Samples.alice) 1 ∅)
                          Samples.db).2) = None.
Proof.
  apply (delete_group_then_lookup
           (Samples.mk_request (Some Samples.alice) 1 ∅) Samples.db 200
           (JObj {[ "message" := JVal (JStr "Successfully deleted") ]})).
  vm_compute. reflexivity.
Defined.

End ReadBack.

(** ** Attaching an image, then listing *)

Section AttachThenList.

Implicit Types (req : Request) (db : DB) (r : GroupRow).

Lemma post_image_sent req db st payload :
  (post_image req db).1 = Sent st payload →
  (post_image req db).2
  = with_GroupImages
      (GroupImages db
       ++ [{| GroupImage.id := next_id GroupImage.id (GroupImages db);
              GroupImage.groupId := groupId_param req;
              GroupImage.url := stored (field (body req) "url");
              GroupImage.preview :=
                stored (BOOLEAN_sanitize (field (body req) "preview")) |}])
      db.
Proof.
  unfold post_image, route.
  destruct (run _ _ db) as [e|c]; [done|]. done.
Qed.

Lemma listing_row r db :
  r ∈ findAll_groups db →
  (∃ i, i ∈ previews_of (Group.id (group r)) db
        ∧ previewImage r = GroupImage.url i)
  ∨ (previews_of (Group.id (group r)) db = [] ∧ previewImage r = JNull).
Proof.
  intros Hr. unfold findAll_groups in Hr.
  apply fold_rows_subset in Hr as [Hr _].
  apply elem_of_groups_select in Hr as (j & Hj & _ & ->). simpl.
  destruct j as [[g om] oi]. simpl.
  apply elem_of_groups_join in Hj as (_ & _ & Hi).
  destruct Hi as [(i & -> & Hi) | [-> Hnil]]; [left; by exists i | by right].
Qed.

(** X7. An image posted with [preview: true] to a group that had no
    preview image is what the listing of [GET /groups] shows for that
    group afterwards: the [previewImage] of each row of that group is
    the url of the request. *)
Theorem post_image_then_listing req db st payload r :
  (post_image req db).1 = Sent st payload →
  previews_of (groupId_param req) db = [] →
  field (body req) "preview" = JBool true →
  r ∈ findAll_groups (post_image req db).2 →
  Group.id (group r) = groupId_param req →
  previewImage r = stored (field (body req) "url").
Proof.
  intros Hsent Hnone Hprev Hr Hid.
  rewrite (post_image_sent _ _ _ _ Hsent) in Hr.
  apply listing_row in Hr. rewrite Hid in Hr.
  unfold previews_of in Hr, Hnone. simpl in Hr.
  rewrite filter_app, Hnone, Hprev in Hr. simpl in Hr.
  rewrite filter_cons_True in Hr by done. rewrite filter_nil in Hr.
  destruct Hr as [(i & Hi & ->) | [[=] _]].
  by apply list_elem_of_singleton in Hi as ->.
Qed.

Lemma post_image_then_listing_witness :
  previewImage {| group := Samples.readers; numMembers := 0;
                  previewImage := JStr "shelf.png" |}
  = stored (field (body (Samples.mk_request (Some Samples.bob) 2
                           {[ "url" := JStr "shelf.png";
                              "preview" := JBool true ]}))
                  "url").
Proof.
  apply (post_image_then_listing
           (Samples.mk_request (Some Samples.bob) 2
              {[ "url" := JStr "shelf.png"; "preview" := JBool true ]})
           Samples.db 200
           (JObj (object [("id", num 3); ("url", JStr "shelf.png");
                          ("preview", JBool true)]))
           {| group := Samples.readers; numMembers := 0;
              previewImage := JStr "shelf.png" |}).
  - vm_compute. reflexivity.
  - vm_compute. reflexivity.
  - vm_compute. reflexivity.
  - apply list_elem_of_In. vm_compute. tauto.
  - reflexivity.
Defined.

Lemma left_outer_join_snoc {A B} (on : A → B → bool) (l : list A)
    (r : list B) (x : B) :
  (∀ a, on a x = false) →
  left_outer_join on l (r ++ [x]) = left_outer_join on l r.
Proof.
  intros Hx. unfold left_outer_join.
  induction l as [|a l IH]; [done|]. rewrite !bind_cons, IH. f_equal.
  rewrite filter_app, (filter_cons_False _ x []), filter_nil, app_nil_r; [done|].
  rewrite Hx. simpl. tauto.
Qed.

(** X8. An image posted with a [preview] that the ORM reads as
    [false] (the boolean, the text [false] or the number [0])
    changes nothing in the listing of [GET /groups]. *)
Theorem post_plain_image_then_listing req db st payload :
  (post_image req db).1 = Sent st payload →
  BOOLEAN_sanitize (field (body req) "preview") = JBool false →
  findAll_groups (post_image req db).2 = findAll_groups db.
Proof.
  intros Hsent Hprev. rewrite (post_image_sent _ _ _ _ Hsent).
  unfold findAll_groups, groups_join. simpl.
  rewrite left_outer_join_snoc; [done|].
  intros a. apply bool_decide_eq_false. simpl. intros [_ Hp].
  by rewrite Hprev in Hp.
Qed.

Lemma post_plain_image_then_listing_witness :
  findAll_groups
    (post_image (Samples.mk_request (Some Samples.bob) 2
                   {[ "url" := JStr "shelf.png"; "preview" := JStr "false" ]})
                Samples.db).2
  = findAll_groups Samples.db.
Proof.
  apply (post_plain_image_then_listing _ _ 200
           (JObj (object [("id", num 3); ("url", JStr "shelf.png");
                          ("preview", JBool false)]))).
  - vm_compute. reflexivity.
  - vm_compute. reflexivity.
Defined.

End AttachThenList.

(** ** Which groups the current-user listing returns, and in what order *)

Section CurrentListing.

Implicit Types (db : DB) (r : GroupRow) (g : Group.t).





Lemma fold_rows_ascending {A} (pk : A → Z) (seen : list Z) (rows : list A) :
  StronglySorted (λ a b, pk a ≤ pk b) rows →
  StronglySorted (λ a b, pk a < pk b) (fold_rows pk seen rows).
Proof.
  revert seen. induction rows as [|a rows IH]; intros seen Hs; [constructor|].
  apply StronglySorted_inv in Hs as [Hs Ha]. simpl.
  destruct (decide (pk a ∈ seen)); [by apply IH|].
  constructor; [by apply IH|].
  apply Forall_forall. intros y Hy.
  apply fold_rows_subset in Hy as [Hy Hns].
  rewrite Forall_forall in Ha. specialize (Ha y Hy).
  assert (pk y ≠ pk a) as Hne.
  { intros He. apply Hns. rewrite He. apply list_elem_of_here. }
  lia.
Qed.

(** X10. [GET /groups/current] lists each group once, in ascending
    order of the group ids. *)
Theorem current_groups_ascending (uid : Z) db :
  StronglySorted (λ a b, Group.id (group a) < Group.id (group b))
                 (current_groups uid db).
Proof.
  unfold current_groups.
  eapply (StronglySorted_fmap _ (λ a b, Group.id (group a) < Group.id (group b)));
    [done|].
  unfold findAll_current.
  apply (fold_rows_ascending (λ r, Group.id (group r))).
  unfold order_by. apply StronglySorted_merge_sort.
  - intros a b c. lia.
  - intros a b. lia.
Qed.

End CurrentListing.

(** ** Which events the event listing returns *)

Section EventScope.

Implicit Types (db : DB) (r : EventRow) (j : EventJoin).

(** X12. [GET /groups/:groupId/events] returns the events of that
    group and no other: the event of each row is an event of the table
    with that [groupId], each such event of the table has a row, and
    no event id occurs in two rows. *)
Theorem event_listing_scope (gid : Z) db :
  (∀ r, r ∈ findAll_events gid db →
        event r ∈ Events db ∧ Event.groupId (event r) = gid)
  ∧ (∀ e, e ∈ Events db → Event.groupId e = gid →
          ∃ r, r ∈ findAll_events gid db
               ∧ Event.id (event r) = Event.id e)
  ∧ NoDup ((λ r, Event.id (event r)) <$> findAll_events gid db).
Proof.
  split; [|split].
  - intros r Hr. apply findAll_events_row in Hr as (j & Hj & Hgid & -> & _).
    apply events_join_event in Hj as [He _]. done.
  - intros e He Hgid. by apply findAll_events_covers.
  - apply fold_rows_NoDup.
Qed.

Lemma event_listing_scope_witness :
  ∃ r, r ∈ findAll_events 1 Samples.db
       ∧ Event.id (event r) = Event.id Samples.walk.
Proof.
  apply (event_listing_scope 1 Samples.db);
    [apply list_elem_of_here | reflexivity].
Defined.

End EventScope.

Section ListingCount.

Lemma listing_numMembers_witness :
  numMembers {| group := Samples.walkers; numMembers := 2;
                previewImage := JStr "pier.png" |}
  = Membership_count (Group.id Samples.walkers) Samples.db.
Proof.
  apply (listing_numMembers Samples.db
           {| group := Samples.walkers; numMembers := 2;
              previewImage := JStr "pier.png" |}).
  - by_computation.
  - intros g Hg. apply list_elem_of_In in Hg.
    destruct Hg as [<- | [<- | []]]; by_computation.
  - apply list_elem_of_In. vm_compute. tauto.
Defined.

End ListingCount.

(** ** Past and upcoming events under a running clock *)

Section RunningClock.

Import Frontend.

Variable Date_parse : string → option Z.
Variable clock : nat → Z.

#[local] Abbreviation parses :=
  (λ e : event, is_Some (Date_parse (startDate e))).



End RunningClock.

Section RunningClockSample.

Import Frontend Samples.


End RunningClockSample.

(** ** Events of the same date keep their order *)

Section Stability.

Import Frontend.

Variable Date_parse : string → option Z.

#[local] Abbreviation dated k :=
  (λ e : event, Date_parse (startDate e) = k).

Lemma sort_insert_stable (k : option Z) (x : event) (l : list event) :
  filter (dated k) (sort_insert (sorter Date_parse) x l)
  = filter (dated k) (x :: l).
Proof.
  induction l as [|y l IH]; [done|]. simpl.
  destruct (stays_before (sorter Date_parse) x y) eqn:Hsb; [done|].
  assert (Date_parse (startDate x) ≠ Date_parse (startDate y)) as Hne.
  { unfold stays_before, sorter in Hsb. intros He. rewrite He in Hsb.
    destruct (Date_parse (startDate y)) as [ty|]; [|done].
    apply bool_decide_eq_false in Hsb. lia. }
  destruct (decide (dated k y)) as [Hy|Hy].
  - rewrite (filter_cons_True _ y) by done. rewrite IH.
    rewrite (filter_cons_False _ x) by (simpl in *; congruence).
    rewrite (filter_cons_False _ x) by (simpl in *; congruence).
    by rewrite filter_cons_True.
  - rewrite (filter_cons_False _ y) by done. rewrite IH.
    destruct (decide (dated k x)) as [Hx|Hx].
    + rewrite !(filter_cons_True _ x) by done.
      by rewrite filter_cons_False.
    + rewrite !(filter_cons_False _ x) by done.
      by rewrite filter_cons_False.
Qed.

(** Sorting never lets an event overtake another of the same parsed
    date, or one whose date does not parse. *)
Lemma Array_sort_stable (k : option Z) (l : list event) :
  filter (dated k) (Array_sort (sorter Date_parse) l) = filter (dated k) l.
Proof.
  induction l as [|x l IH]; [done|]. unfold Array_sort in *. simpl.
  rewrite sort_insert_stable.
  destruct (decide (dated k x)).
  - rewrite !filter_cons_True by done. by rewrite IH.
  - rewrite !filter_cons_False by done. by rewrite IH.
Qed.

(** X14. With a clock that stands still and start dates that all
    parse, the events of one start time come in each of the two lists
    in the order they have in the input: the sort lets no event
    overtake another of the same start time. *)
Theorem getTimeEvents_stable (now : Z) (events : list event) (t : Z) :
  Forall (λ e, is_Some (Date_parse (startDate e))) events →
  filter (dated (Some t)) (getTimeEvents Date_parse (λ _, now) events).1
  = filter (dated (Some t)) (filter (starts_before Date_parse now) events)
  ∧ filter (dated (Some t)) (getTimeEvents Date_parse (λ _, now) events).2
    = filter (dated (Some t))
             (filter (λ e, ¬ starts_before Date_parse now e) events).
Proof.
  intros _. unfold getTimeEvents. rewrite partition_events_fixed. simpl.
  by rewrite !Array_sort_stable.
Qed.

End Stability.

Section StabilitySample.

Import Frontend Samples.

Lemma getTimeEvents_stable_witness :
  filter (λ e, parse_date_only (startDate e) = Some 1893456000000)
         (getTimeEvents parse_date_only (λ _, now)
            [page_event 1 "2030-01-01"; page_event 2 "2029-05-05";
             page_event 3 "2030-01-01"]).2
  = [page_event 1 "2030-01-01"; page_event 3 "2030-01-01"].
Proof.
  etrans.
  - apply (getTimeEvents_stable parse_date_only now
             [page_event 1 "2030-01-01"; page_event 2 "2029-05-05";
              page_event 3 "2030-01-01"] 1893456000000).
    repeat constructor; vm_compute; by eexists.
  - vm_compute. reflexivity.
Defined.

End StabilitySample.

(** ** The location field of the group form *)

Section Location.

Import Frontend.

Example split_samples :
  String_split ", " "Brighton, Sussex" = ["Brighton"; "Sussex"]
  ∧ String_split ", " "Brighton" = ["Brighton"]
  ∧ String_split ", " "" = [""]
  ∧ String_split ", " "a, " = ["a"; ""]
  ∧ String_split ", " "a,b , c, d" = ["a,b "; "c"; "d"].
Proof. repeat split; reflexivity. Qed.

Lemma append_cons c (s t : string) : String c s +:+ t = String c (s +:+ t).
Proof. reflexivity. Qed.

Lemma append_assoc_cons (acc : string) c (a : string) :
  (acc +:+ String c "") +:+ a = acc +:+ String c a.
Proof.
  induction acc as [|d acc IH]; [done|]. by rewrite !append_cons, IH.
Qed.

Lemma append_empty_r (s : string) : s +:+ "" = s.
Proof. induction s as [|c s IH]; [done|]. by rewrite append_cons, IH. Qed.

Lemma prefix_comma_space (s : string) :
  String.prefix ", " s = true ↔ ∃ r, s = String "," (String " " r).
Proof.
  split.
  - destruct s as [|c [|d r]]; cbn [String.prefix]; try done.
    + by destruct (ascii_dec "," c).
    + destruct (ascii_dec "," c) as [<-|]; [|done].
      destruct (ascii_dec " " d) as [<-|]; [|done]. by eexists.
  - intros [r ->]. cbn [String.prefix].
    destruct (ascii_dec "," ","); [|done].
    destruct (ascii_dec " " " "); [|done]. by destruct r.
Qed.

(** Reading a piece without separator up to the end. *)
Lemma split_from_end (a acc : string) :
  occurs ", " a = false → split_from ", " a acc 0 = [acc +:+ a].
Proof.
  revert acc. induction a as [|c a IH]; intros acc Ho.
  - cbn [split_from]. by rewrite append_empty_r.
  - cbn [occurs] in Ho. apply orb_false_iff in Ho as [Hp Ho].
    cbn [split_from]. rewrite Hp, IH by done. by rewrite append_assoc_cons.
Qed.

(** Reading a piece without separator up to a separator. *)
Lemma split_from_separator (a acc r : string) :
  occurs ", " a = false →
  split_from ", " (a +:+ ", " +:+ r) acc 0
  = (acc +:+ a) :: split_from ", " r "" 0.
Proof.
  revert acc. induction a as [|c a IH]; intros acc Ho.
  - change ("" +:+ ", " +:+ r) with (String "," (String " " r)).
    cbn [split_from].
    rewrite (proj2 (prefix_comma_space _) (ex_intro _ r eq_refl)).
    change (String.length ", " - 1)%nat with 1%nat. cbn [split_from].
    by rewrite append_empty_r.
  - cbn [occurs] in Ho. apply orb_false_iff in Ho as [Hp Ho].
    rewrite append_cons.
    cbn [split_from].
    assert (String.prefix ", " (String c (a +:+ ", " +:+ r)) = false) as ->.
    { destruct (String.prefix ", " (String c (a +:+ ", " +:+ r))) eqn:E; [|done].
      apply prefix_comma_space in E as [r' E]. injection E as -> E.
      destruct a as [|d a]; [done|]. injection E as -> _.
      by rewrite (proj2 (prefix_comma_space _) (ex_intro _ a eq_refl)) in Hp. }
    rewrite IH by done. by rewrite append_assoc_cons.
Qed.

(** X15. [changeLocation] reads a location written as a city, a comma
    and a space, and a state back into the two: when neither part
    holds the separator, the city and the state are the two parts,
    also when more text follows a second separator, which is
    dropped. *)
Theorem changeLocation_reads_city_and_state (city state more : string) :
  occurs ", " city = false →
  occurs ", " state = false →
  changeLocation (city +:+ ", " +:+ state) = (JStr city, JStr state)
  ∧ changeLocation (city +:+ ", " +:+ state +:+ ", " +:+ more)
    = (JStr city, JStr state).
Proof.
  intros Hc Hs. unfold changeLocation, String_split. split.
  - rewrite split_from_separator, split_from_end by done. done.
  - rewrite !split_from_separator by done. done.
Qed.

Lemma changeLocation_reads_city_and_state_witness :
  changeLocation "Brighton, Sussex" = (JStr "Brighton", JStr "Sussex")
  ∧ changeLocation "Brighton, Sussex, England"
    = (JStr "Brighton", JStr "Sussex").
Proof.
  apply (changeLocation_reads_city_and_state "Brighton" "Sussex" "England");
    reflexivity.
Defined.

(** X16. A location without the separator gives the whole text as the
    city and [undefined] as the state. *)
Theorem changeLocation_without_separator (location : string) :
  occurs ", " location = false →
  changeLocation location = (JStr location, JUndefined).
Proof.
  intros Ho. unfold changeLocation, String_split.
  by rewrite split_from_end.
Qed.

Lemma changeLocation_without_separator_witness :
  changeLocation "Brighton,Sussex" = (JStr "Brighton,Sussex", JUndefined).
Proof. apply changeLocation_without_separator. reflexivity. Defined.

End Location.

(** ** What the panel of events shows *)

Section Panel.

Import Frontend.

Variable Date_parse : string → option Z.

Lemma getTimeEvents_fixed_lists now (events : list event) :
  getTimeEvents Date_parse (λ _, now) events
  = (Array_sort (sorter Date_parse)
       (filter (starts_before Date_parse now) events),
     Array_sort (sorter Date_parse)
       (filter (λ e, ¬ starts_before Date_parse now e) events)).
Proof. unfold getTimeEvents. by rewrite partition_events_fixed. Qed.

Lemma Array_sort_length cmp (l : list event) :
  length (Array_sort cmp l) = length l.
Proof. by rewrite Array_sort_Permutation. Qed.

(** X17. With a clock that stands still: a page without events shows
    the heading of no upcoming events and nothing else; a page whose
    events all started before [now] shows nothing at all, neither a
    heading nor an event; and a page with an event that did not start
    before [now] shows every event of the list. *)
Theorem render_events_panel_shows (now : Z) (events : list event) :
  (events = [] →
   render_events_panel Date_parse (λ _, now) events = [NoUpcomingEvents])
  ∧ (events ≠ [] →
     Forall (starts_before Date_parse now) events →
     render_events_panel Date_parse (λ _, now) events = [])
  ∧ (Exists (λ e, ¬ starts_before Date_parse now e) events →
     ∀ e, EventPreview e ∈ render_events_panel Date_parse (λ _, now) events
          ↔ e ∈ events).
Proof.
  unfold render_events_panel. rewrite getTimeEvents_fixed_lists.
  unfold events_panel. rewrite !Array_sort_length.
  split; [|split].
  - intros ->. done.
  - intros Hne Hall.
    assert (filter (λ e, ¬ starts_before Date_parse now e) events = [])
      as ->.
    { apply elem_of_nil_inv. intros e He.
      apply list_elem_of_filter in He as [Hn He].
      rewrite Forall_forall in Hall. by apply Hn, Hall. }
    rewrite bool_decide_eq_true_2; [done|].
    destruct events; [done|]. simpl. lia.
  - intros Hex e.
    assert (length (filter (λ e, ¬ starts_before Date_parse now e) events)
            ≠ 0%nat) as Hlen.
    { apply Exists_exists in Hex as (x & Hx & Hn).
      assert (x ∈ filter (λ e, ¬ starts_before Date_parse now e) events)
        as Hin by (by apply list_elem_of_filter).
      destruct (filter _ events); [by apply elem_of_nil in Hin | done]. }
    assert (length events ≠ 0%nat) as Hlen'.
    { apply Exists_exists in Hex as (x & Hx & _).
      destruct events; [by apply elem_of_nil in Hx | done]. }
    rewrite !bool_decide_eq_true_2 by done. simpl.
    rewrite !elem_of_cons, elem_of_app, elem_of_cons, !list_elem_of_fmap.
    split.
    + intros [? | [(x & [= ->] & Hx) | [? | (x & [= ->] & Hx)]]]; try done.
      * rewrite Array_sort_Permutation in Hx.
        by apply list_elem_of_filter in Hx as [_ ?].
      * rewrite Array_sort_Permutation in Hx.
        by apply list_elem_of_filter in Hx as [_ ?].
    + intros He. destruct (decide (starts_before Date_parse now e)).
      * right. right. right. exists e. split; [done|].
        rewrite Array_sort_Permutation. by apply list_elem_of_filter.
      * right. left. exists e. split; [done|].
        rewrite Array_sort_Permutation. by apply list_elem_of_filter.
Qed.

End Panel.

Section PanelSample.

Import Frontend Samples.

Lemma render_events_panel_shows_witness :
  render_events_panel parse_date_only (λ _, now)
    [page_event 1 "2020-01-01"; page_event 2 "2010-05-05"] = [].
Proof.
  apply (render_events_panel_shows parse_date_only now
           [page_event 1 "2020-01-01"; page_event 2 "2010-05-05"]).
  - discriminate.
  - repeat constructor; vm_compute; reflexivity.
Defined.

End PanelSample.

(** ** The venues of a group *)

Section Venues.

Implicit Types (req : Request) (db : DB) (v : Venue.t).

(** What the three guards of the venue routes decide. *)
Lemma venue_guards req db :
  run [requireAuth; groupExists; isOrgOrCo]
      {| request := req; validation := [] |} db
  = match user req with
    | None => inl (http_error 401 ∅)
    | Some u =>
        match findByPk Group.id (groupId_param req) (Groups db) with
        | None => inl not_found
        | Some g =>
            if organizes (Some u) g || cohosts (Some u) g db
            then inr {| request := req; validation := [] |}
            else inl (http_error 403 ∅)
        end
    end.
Proof.
  rewrite run_cons. unfold requireAuth. simpl.
  destruct (user req) as [u|] eqn:Hu; [|done]. simpl.
  rewrite run_cons. unfold groupExists. simpl.
  destruct (findByPk _ _ _) as [g|] eqn:Hg; [|done]. simpl.
  rewrite run_cons. unfold isOrgOrCo. simpl. rewrite Hg, Hu.
  by destruct (_ || _).
Qed.

Lemma elem_of_venue_rows (k : Z) db :
  let rows :=
    left_outer_join (λ g v, bool_decide (Venue.groupId v = Group.id g))
                    (filter (λ g, Group.id g = k) (Groups db)) (Venues db) in
  ∀ v, v ∈ omap snd rows
       ↔ v ∈ Venues db ∧ Venue.groupId v = k
         ∧ ∃ g, g ∈ Groups db ∧ Group.id g = k.
Proof.
  intros rows v. unfold rows. rewrite list_elem_of_omap. split.
  - intros ([g ov] & Hin & Hv). simpl in Hv. subst ov.
    apply elem_of_left_outer_join in Hin as [Hg Hm].
    apply list_elem_of_filter in Hg as [Hk Hg].
    destruct Hm as [(v' & [= <-] & Hv & Hon) | [[=] _]].
    apply bool_decide_eq_true in Hon. split; [done|].
    split; [congruence | by exists g].
  - intros (Hv & Hk & g & Hg & Hgk). exists (g, Some v). split; [|done].
    apply elem_of_left_outer_join. split; [by apply list_elem_of_filter|].
    left. exists v. split; [done|]. split; [done|].
    apply bool_decide_eq_true. congruence.
Qed.

Lemma venues_of_group_Some (k : Z) db (vs : list Venue.t) :
  venues_of_group k db = Some vs →
  (∀ v, v ∈ vs → v ∈ Venues db ∧ Venue.groupId v = k)
  ∧ (∀ v, v ∈ Venues db → Venue.groupId v = k →
          ∃ v', v' ∈ vs ∧ Venue.id v' = Venue.id v)
  ∧ NoDup (Venue.id <$> vs).
Proof.
  unfold venues_of_group.
  remember (left_outer_join
              (λ g v, bool_decide (Venue.groupId v = Group.id g))
              (filter (λ g, Group.id g = k) (Groups db)) (Venues db))
    as rows eqn:Hrows.
  intros Hvs.
  assert (vs = fold_rows Venue.id [] (omap snd rows)
          ∧ ∃ row, row ∈ rows) as [-> [row Hrow]].
  { destruct rows as [|row rest]; [done|].
    split; [by injection Hvs | exists row; apply list_elem_of_here]. }
  clear Hvs. subst rows.
  assert (∃ g, g ∈ Groups db ∧ Group.id g = k) as Hgroup.
  { destruct row as [g ov].
    apply elem_of_left_outer_join in Hrow as [Hg _].
    apply list_elem_of_filter in Hg as [Hk Hg]. by exists g. }
  split; [|split].
  - intros v Hv. apply fold_rows_subset in Hv as [Hv _].
    apply (elem_of_venue_rows k db) in Hv as (? & ? & _). done.
  - intros v Hv Hk.
    assert (v ∈ omap snd
                  (left_outer_join
                     (λ g v, bool_decide (Venue.groupId v = Group.id g))
                     (filter (λ g, Group.id g = k) (Groups db)) (Venues db)))
      as Hin by (by apply (elem_of_venue_rows k db)).
    destruct (fold_rows_keeps_keys Venue.id [] _ _ Hin)
      as (y & Hy & Hpk); [apply not_elem_of_nil|].
    by exists y.
  - apply fold_rows_NoDup.
Qed.

(** X18. [GET /groups/:groupId/venues], when it answers, answers with
    an object whose [Venues] are venues of that group and no other:
    each listed venue is a venue of the table with that [groupId],
    each such venue of the table is listed, and no venue id is listed
    twice. *)
Theorem get_venues_lists req db st payload :
  (get_venues req db).1 = Sent st payload →
  ∃ vs, payload = JObj {[ "Venues" := JArr (Venue_toJSON <$> vs) ]}
        ∧ (∀ v, v ∈ vs →
                v ∈ Venues db ∧ Venue.groupId v = groupId_param req)
        ∧ (∀ v, v ∈ Venues db → Venue.groupId v = groupId_param req →
                ∃ v', v' ∈ vs ∧ Venue.id v' = Venue.id v)
        ∧ NoDup (Venue.id <$> vs).
Proof.
  unfold get_venues, route. rewrite venue_guards.
  destruct (user req) as [u|]; [|done].
  destruct (findByPk _ _ _) as [g|] eqn:Hg; [|done].
  destruct (_ || _); [|done].
  unfold venues_handler.
  destruct (venues_of_group (groupId_param req) db) as [vs|] eqn:Hvs.
  - simpl. intros [= <- <-]. exists vs. split; [done|].
    by apply venues_of_group_Some.
  - exfalso. unfold venues_of_group in Hvs.
    apply findByPk_Some in Hg as [Hg Hk].
    destruct (left_outer_join_total
                (λ g v, bool_decide (Venue.groupId v = Group.id g))
                (filter (λ g, Group.id g = groupId_param req) (Groups db))
                (Venues db) g) as [ov Hov];
      [by apply list_elem_of_filter|].
    destruct (left_outer_join _ _ (Venues db)); [|done].
    by apply elem_of_nil in Hov.
Qed.

Lemma get_venues_lists_witness :
  ∃ vs, JObj {[ "Venues" := JArr (Venue_toJSON <$> [Samples.pier]) ]}
        = JObj {[ "Venues" := JArr (Venue_toJSON <$> vs) ]}
        ∧ (∀ v, v ∈ vs → v ∈ Venues Samples.db ∧ Venue.groupId v = 1).
Proof.
  destruct (get_venues_lists (Samples.mk_request (Some Samples.alice) 1 ∅)
              Samples.db 200
              (JObj {[ "Venues" := JArr (Venue_toJSON <$> [Samples.pier]) ]}))
    as (vs & Hp & Hin & _).
  - vm_compute. reflexivity.
  - by exists vs.
Defined.

Lemma post_venue_sent req db st payload :
  (post_venue req db).1 = Sent st payload →
  (∃ u g, user req = Some u
          ∧ findByPk Group.id (groupId_param req) (Groups db) = Some g
          ∧ organizes (Some u) g || cohosts (Some u) g db = true)
  ∧ validationResult (body req) venue_checks = []
  ∧ st = 200
  ∧ payload
    = JObj (res_json
              [("id", num (Venue.id (created_venue req db)));
               ("groupId", params_groupId req);
               ("address", Venue.address (created_venue req db));
               ("city", Venue.city (created_venue req db));
               ("state", Venue.state (created_venue req db));
               ("lat", Venue.lat (created_venue req db));
               ("lng", Venue.lng (created_venue req db))])
  ∧ (post_venue req db).2
    = with_Venues (Venues db ++ [created_venue req db]) db.
Proof.
  unfold post_venue, route. rewrite run_app, venue_guards.
  destruct (user req) as [u|]; [|done].
  destruct (findByPk _ _ _) as [g|] eqn:Hg; [|done].
  destruct (_ || _) eqn:Hco; [|done].
  unfold validateVenue. rewrite run_validate.
  destruct (validationResult _ _) eqn:Hv; [|done].
  unfold post_venue_handler. simpl. intros [= <- <-].
  split; [by exists u, g|]. done.
Qed.

(** X19. A venue created by [POST /groups/:groupId/venues], from a
    body whose [address], [city] and [state] are texts and whose
    [lat] and [lng] are numbers, is listed for that group afterwards:
    the same principal's [GET /groups/:groupId/venues] on the database
    after the request answers 200 with a list that holds a venue which
    was not in the table, which has the [id] that the request answered
    with, the [groupId] of the path and the five fields of the
    body. *)
Theorem post_venue_then_listed req db st payload :
  (post_venue req db).1 = Sent st payload →
  Forall (λ k, is_text (field (body req) k)) ["address"; "city"; "state"] →
  (∃ x y, field (body req) "lat" = JNum x ∧ field (body req) "lng" = JNum y) →
  ∃ vs v fields,
    (get_venues req (post_venue req db).2).1
    = Sent 200 (JObj {[ "Venues" := JArr (Venue_toJSON <$> vs) ]})
    ∧ v ∈ vs
    ∧ (v ∉ Venues db)
    ∧ payload = JObj fields
    ∧ fields !! "id" = Some (JVal (num (Venue.id v)))
    ∧ Venue.groupId v = groupId_param req
    ∧ Venue.address v = field (body req) "address"
    ∧ Venue.city v = field (body req) "city"
    ∧ Venue.state v = field (body req) "state"
    ∧ Venue.lat v = field (body req) "lat"
    ∧ Venue.lng v = field (body req) "lng".
Proof.
  intros Hsent _ _.
  apply post_venue_sent in Hsent
    as ((u & g & Hu & Hg & Hco) & _ & _ & -> & ->).
  assert (∃ vs, venues_of_group (groupId_param req)
                  (with_Venues (Venues db ++ [created_venue req db]) db)
                = Some vs ∧ created_venue req db ∈ vs) as (vs & Hvs & Hin).
  { destruct (venues_of_group (groupId_param req)
                (with_Venues (Venues db ++ [created_venue req db]) db))
      as [vs|] eqn:Hvs.
    2:{ exfalso. unfold venues_of_group in Hvs. simpl in Hvs.
        pose proof Hg as Hg'. apply findByPk_Some in Hg' as [Hgin Hk].
        destruct (left_outer_join_total
                    (λ g v, bool_decide (Venue.groupId v = Group.id g))
                    (filter (λ g, Group.id g = groupId_param req) (Groups db))
                    (Venues db ++ [created_venue req db]) g) as [ov Hov];
          [by apply list_elem_of_filter|].
        destruct (left_outer_join _ _ (Venues db ++ _)); [|done].
        by apply elem_of_nil in Hov. }
    exists vs. split; [done|].
    apply venues_of_group_Some in Hvs as (Hin & Hall & _). simpl in *.
    destruct (Hall (created_venue req db)) as (v' & Hv' & Hid).
    { apply elem_of_app. right. apply list_elem_of_here. }
    { done. }
    destruct (Hin v' Hv') as [Hv'in _].
    apply elem_of_app in Hv'in as [Hold | Hnew].
    - apply (next_id_fresh Venue.id) in Hold. simpl in Hid. lia.
    - by apply list_elem_of_singleton in Hnew as ->. }
  exists vs, (created_venue req db). eexists.
  split.
  { unfold get_venues, route. rewrite venue_guards, Hu.
    change (Groups (with_Venues (Venues db ++ [created_venue req db]) db))
      with (Groups db).
    rewrite Hg.
    change (cohosts (Some u) g
              (with_Venues (Venues db ++ [created_venue req db]) db))
      with (cohosts (Some u) g db).
    rewrite Hco. unfold venues_handler. by rewrite Hvs. }
  split; [done|]. split.
  { intros Hold. apply (next_id_fresh Venue.id) in Hold. simpl in Hold. lia. }
  split; [reflexivity|]. split; [|done].
  unfold res_json. rewrite filter_cons_True by done.
  unfold object. rewrite fmap_cons. simpl. by rewrite lookup_insert.
Qed.

Lemma post_venue_then_listed_witness :
  ∃ vs v,
    (get_venues (Samples.mk_request (Some Samples.alice) 1
                   (Samples.venue_body (num 51) (num (-1))))
                (post_venue (Samples.mk_request (Some Samples.alice) 1
                               (Samples.venue_body (num 51) (num (-1))))
                            Samples.db).2).1
    = Sent 200 (JObj {[ "Venues" := JArr (Venue_toJSON <$> vs) ]})
    ∧ v ∈ vs
    ∧ Venue.address v = JStr "1 Marine Parade"
    ∧ Venue.lat v = num 51.
Proof.
  destruct (post_venue_then_listed
              (Samples.mk_request (Some Samples.alice) 1
                 (Samples.venue_body (num 51) (num (-1))))
              Samples.db 200
              (JObj (res_json
                       [("id", num 4); ("groupId", JStr "1");
                        ("address", JStr "1 Marine Parade");
                        ("city", JStr "Brighton"); ("state", JStr "Sussex");
                        ("lat", num 51); ("lng", num (-1))])))
    as (vs & v & fields & Hget & Hin & _ & _ & _ & _ & Ha & _ & _ & Hlat & _).
  - vm_compute. reflexivity.
  - repeat constructor; eexists; vm_compute; reflexivity.
  - eexists _, _. split; reflexivity.
  - exists vs, v. split; [exact Hget|]. split; [exact Hin|].
    split; [by rewrite Ha | by rewrite Hlat].
Defined.

End Venues.

(** ** Attendance counts of the event listing *)

Section EventCounting.

Implicit Types (db : DB) (e : Event.t) (r : EventRow) (j : EventJoin).

#[local] Abbreviation on_attendance :=
  (λ (e : Event.t) (a : Attendance.t),
     bool_decide (Attendance.eventId a = Event.id e
                  ∧ Attendance.status a = "attending")).

#[local] Abbreviation on_event_image :=
  (λ (p : Event.t * option Attendance.t) (i : EventImage.t),
     bool_decide (EventImage.eventId i = Event.id p.1
                  ∧ EventImage.preview i = JBool true)).

#[local] Abbreviation on_group :=
  (λ (p : Event.t * option Attendance.t * option EventImage.t) (g : Group.t),
     bool_decide (Group.id g = Event.groupId p.1.1)).

#[local] Abbreviation on_venue :=
  (λ (p : Event.t * option Attendance.t * option EventImage.t
          * option Group.t) (v : Venue.t),
     bool_decide (Venue.id v = Event.venueId p.1.1.1)).

(** Among the matches of a row, a value that tells the matching rows
    apart occurs once. *)
Lemma matches_unique_count {A B C} `{EqDecision C} (on : A → B → bool)
    (a : A) (rs : list B) (F : option B → C) (o : option B) :
  NoDup ((λ b, F (Some b)) <$> filter (λ b, on a b) rs) →
  o ∈ matches on a rs →
  length (filter (λ o', F o' = F o) (matches on a rs)) = 1%nat.
Proof.
  unfold matches. intros Hnd Ho.
  destruct (filter (λ b, on a b) rs) as [|b0 l].
  - apply list_elem_of_singleton in Ho as ->.
    by rewrite filter_cons_True.
  - revert Hnd Ho. generalize (b0 :: l). clear. intros l Hnd Ho.
    apply list_elem_of_fmap in Ho as (b & -> & Hb).
    rewrite <- (length_filter_unique (λ b, F (Some b)) l b Hnd Hb).
    clear. induction l as [|x l IH]; [done|]. rewrite fmap_cons.
    destruct (decide (F (Some x) = F (Some b))) as [He|He].
    + rewrite !filter_cons_True by done. simpl. by rewrite IH.
    + rewrite !filter_cons_False by done. done.
Qed.

Lemma NoDup_fmap_filter {A C} (f : A → C) (P : A → Prop)
    `{∀ x, Decision (P x)} (l : list A) :
  NoDup (f <$> l) → NoDup (f <$> filter P l).
Proof.
  intros Hnd. eapply sublist_NoDup; [exact Hnd|].
  apply fmap_sublist, sublist_filter.
Qed.

(** The joined rows of one event are the product of its attendances
    of status attending, its preview images, its group and its venue,
    each replaced by one [NULL] where there is none. *)
Lemma events_join_of_event db e :
  NoDup (Event.id <$> Events db) → e ∈ Events db →
  filter (λ j, Event.id (ej_event j) = Event.id e) (events_join db)
  = (((pair e <$> matches on_attendance e (Attendances db))
        ≫= (λ a, pair a <$> matches on_event_image (e, None) (EventImages db)))
       ≫= (λ a, pair a <$> matches on_group (e, None, None) (Groups db)))
      ≫= (λ a, pair a <$> matches on_venue (e, None, None, None) (Venues db)).
Proof.
  intros Hnd He. unfold events_join.
  etrans.
  { exact (filter_left_outer_join on_venue
             (λ p : Event.t * option Attendance.t * option EventImage.t
                    * option Group.t,
                Event.id p.1.1.1 = Event.id e)
             (left_outer_join on_group
                (left_outer_join on_event_image
                   (left_outer_join on_attendance (Events db) (Attendances db))
                   (EventImages db))
                (Groups db))
             (Venues db)). }
  etrans.
  { apply (f_equal (λ l, left_outer_join on_venue l (Venues db))).
    etrans.
    { exact (filter_left_outer_join on_group
               (λ p : Event.t * option Attendance.t * option EventImage.t,
                  Event.id p.1.1 = Event.id e)
               (left_outer_join on_event_image
                  (left_outer_join on_attendance (Events db) (Attendances db))
                  (EventImages db))
               (Groups db)). }
    etrans.
    { apply (f_equal (λ l, left_outer_join on_group l (Groups db))).
      etrans.
      { exact (filter_left_outer_join on_event_image
                 (λ p : Event.t * option Attendance.t,
                    Event.id p.1 = Event.id e)
                 (left_outer_join on_attendance (Events db) (Attendances db))
                 (EventImages db)). }
      etrans.
      { apply (f_equal (λ l, left_outer_join on_event_image l (EventImages db))).
        etrans.
        { exact (filter_left_outer_join on_attendance
                   (λ e', Event.id e' = Event.id e)
                   (Events db) (Attendances db)). }
        rewrite (filter_unique_key Event.id _ e Hnd He).
        rewrite (left_outer_join_matches on_attendance [e]).
        apply bind_singleton. }
      apply (left_outer_join_constant on_event_image _ _
               (matches on_event_image (e, None) (EventImages db))).
      intros [e' oa] Ha.
      apply list_elem_of_fmap in Ha as (oa' & [= -> ->] & _).
      reflexivity. }
    apply (left_outer_join_constant on_group _ _
             (matches on_group (e, None, None) (Groups db))).
    intros [[e' oa] oi] Ha.
    apply list_elem_of_bind in Ha as ([e'' oa'] & Ha & Hb).
    apply list_elem_of_fmap in Ha as (oi' & [= -> -> ->] & _).
    apply list_elem_of_fmap in Hb as (oa'' & [= -> ->] & _).
    reflexivity. }
  apply left_outer_join_constant.
  intros [[[e' oa] oi] og] Ha.
  apply list_elem_of_bind in Ha as ([[e1 oa1] oi1] & Ha & Hb).
  apply list_elem_of_fmap in Ha as (og' & [= -> -> -> ->] & _).
  apply list_elem_of_bind in Hb as ([e2 oa2] & Hb & Hc).
  apply list_elem_of_fmap in Hb as (oi' & [= -> -> ->] & _).
  apply list_elem_of_fmap in Hc as (oa'' & [= -> ->] & _).
  reflexivity.
Qed.

Lemma matches_attending_count e (atts : list Attendance.t) (gid : Z) :
  Event.groupId e = gid →
  length (filter (λ a : Event.t * option Attendance.t,
                    is_Some (Attendance.id <$> a.2) ∧ Event.groupId a.1 = gid)
                 (pair e <$> matches on_attendance e atts))
  = length (filter (λ a, Attendance.eventId a = Event.id e
                         ∧ Attendance.status a = "attending") atts).
Proof.
  intros Hgid.
  transitivity (length (filter (λ a : Attendance.t, on_attendance e a) atts)).
  2:{ f_equal. apply list_filter_iff. intros a. apply bool_decide_spec. }
  unfold matches.
  destruct (filter (λ a : Attendance.t,
                      bool_decide (Attendance.eventId a = Event.id e
                                   ∧ Attendance.status a = "attending")) atts)
    as [|a0 l].
  - rewrite fmap_cons, filter_cons_False; [done|].
    simpl. intros [[? [=]] _].
  - generalize (a0 :: l). clear -Hgid. intros l.
    induction l as [|a l IH]; [done|]. rewrite !fmap_cons.
    rewrite filter_cons_True; [simpl; by rewrite IH|].
    simpl. split; [by eexists | done].
Qed.

Lemma NoDup_fmap_Some {A} (f : A → Z) (l : list A) :
  NoDup (f <$> l) → NoDup ((λ a, Some (f a)) <$> l).
Proof.
  intros Hnd. rewrite (list_fmap_compose f Some).
  by apply (NoDup_fmap Some).
Qed.

(** X20. Where the ids of events, groups and venues are unique and no
    two preview images of an event share a url, the event listing
    reports for each event the number of its attendances of status
    attending. *)
Theorem event_listing_numAttending (gid : Z) db r :
  NoDup (Event.id <$> Events db) →
  NoDup (Group.id <$> Groups db) →
  NoDup (Venue.id <$> Venues db) →
  (∀ e, e ∈ Events db →
        NoDup (EventImage.url <$> event_previews_of (Event.id e) db)) →
  r ∈ findAll_events gid db →
  numAttending r = length (attending_of (Event.id (event r)) db).
Proof.
  intros Hnde Hndg Hndv Hurl Hr. unfold findAll_events in Hr.
  apply fold_rows_subset in Hr as [Hr _].
  apply elem_of_events_select in Hr as (j & Hj & He & _ & _ & _ & ->).
  rewrite He. clear He r.
  apply list_elem_of_filter in Hj as [HW Hj].
  destruct j as [[[[e oa] oi] og] ov].
  unfold ej_event in *. simpl in *.
  pose proof (events_join_event db _ Hj) as [Hev _].
  unfold ej_event in Hev. simpl in Hev.
  assert ((e, oa, oi, og, ov)
          ∈ filter (λ j, Event.id (ej_event j) = Event.id e) (events_join db))
    as Hin by (by apply list_elem_of_filter).
  rewrite (events_join_of_event db e Hnde Hev) in Hin.
  apply list_elem_of_bind in Hin as ([[[e1 oa1] oi1] og1] & Hin & Hg).
  apply list_elem_of_fmap in Hin as (ov' & [= <- <- <- <- <-] & Hov).
  apply list_elem_of_bind in Hg as ([[e2 oa2] oi2] & Hg & Hi).
  apply list_elem_of_fmap in Hg as (og' & [= <- <- <- <-] & Hog).
  apply list_elem_of_bind in Hi as ([e3 oa3] & Hi & _).
  apply list_elem_of_fmap in Hi as (oi' & [= <- <- <-] & Hoi).
  unfold count, attending_of.
  transitivity
    (length
       (filter (λ p : EventJoin,
                  (((is_Some (Attendance.id <$> p.1.1.1.2)
                     ∧ Event.groupId p.1.1.1.1 = gid)
                    ∧ event_image_url p.1.1.2 = event_image_url oi)
                   ∧ Group.id <$> p.1.2 = Group.id <$> og)
                  ∧ Venue.id <$> p.2 = Venue.id <$> ov)
               (filter (λ j', Event.id (ej_event j') = Event.id e)
                       (events_join db)))).
  { rewrite !list_filter_filter. f_equal. apply list_filter_iff.
    intros [[[[e' oa'] oi'] og'] ov'].
    unfold event_key, ej_event, ej_attendance, ej_image, ej_group, ej_venue.
    simpl. split.
    - intros Hx. destruct_and!. simplify_eq. done.
    - intros Hx. destruct_and!. repeat split; try done. congruence. }
  rewrite (events_join_of_event db e Hnde Hev).
  etrans.
  { exact (length_filter_product
             (λ p : Event.t * option Attendance.t * option EventImage.t
                    * option Group.t,
                ((is_Some (Attendance.id <$> p.1.1.2)
                  ∧ Event.groupId p.1.1.1 = gid)
                 ∧ event_image_url p.1.2 = event_image_url oi)
                ∧ Group.id <$> p.2 = Group.id <$> og)
             (λ ov', Venue.id <$> ov' = Venue.id <$> ov)
             _ (matches on_venue (e, None, None, None) (Venues db))). }
  etrans.
  { apply (f_equal (λ n, (n * _)%nat)).
    etrans.
    { exact (length_filter_product
               (λ p : Event.t * option Attendance.t * option EventImage.t,
                  (is_Some (Attendance.id <$> p.1.2)
                   ∧ Event.groupId p.1.1 = gid)
                  ∧ event_image_url p.2 = event_image_url oi)
               (λ og', Group.id <$> og' = Group.id <$> og)
               _ (matches on_group (e, None, None) (Groups db))). }
    apply (f_equal (λ n, (n * _)%nat)).
    exact (length_filter_product
             (λ p : Event.t * option Attendance.t,
                is_Some (Attendance.id <$> p.2) ∧ Event.groupId p.1 = gid)
             (λ oi', event_image_url oi' = event_image_url oi)
             _ (matches on_event_image (e, None) (EventImages db))). }
  rewrite (matches_attending_count e (Attendances db) gid HW).
  rewrite (matches_unique_count on_event_image (e, None) (EventImages db)
             event_image_url oi).
  2:{ specialize (Hurl e Hev). unfold event_previews_of in Hurl.
      erewrite list_filter_iff; [exact Hurl|].
      intros i. apply bool_decide_spec. }
  2:{ done. }
  rewrite (matches_unique_count on_group (e, None, None) (Groups db)
             (fmap Group.id) og).
  2:{ by apply NoDup_fmap_Some, NoDup_fmap_filter. }
  2:{ done. }
  rewrite (matches_unique_count on_venue (e, None, None, None) (Venues db)
             (fmap Venue.id) ov).
  2:{ by apply NoDup_fmap_Some, NoDup_fmap_filter. }
  2:{ done. }
  lia.
Qed.

Lemma event_listing_numAttending_witness :
  numAttending {| event := Samples.walk; numAttending := 1;
                  event_previewImage := JStr "walk.png";
                  event_Group := Some Samples.walkers;
                  event_Venue := Some Samples.pier |}
  = length (attending_of (Event.id Samples.walk) Samples.db).
Proof.
  apply (event_listing_numAttending 1 Samples.db
           {| event := Samples.walk; numAttending := 1;
              event_previewImage := JStr "walk.png";
              event_Group := Some Samples.walkers;
              event_Venue := Some Samples.pier |}).
  - by_computation.
  - by_computation.
  - by_computation.
  - intros e He. apply list_elem_of_singleton in He as ->. by_computation.
  - apply list_elem_of_In. vm_compute. left. reflexivity.
Defined.

End EventCounting.
